(** * freehandTool: incremental tracing of a pointer path

    A shallow embedding of [freehand.py] (the pipe of filters TurnGenerator,
    LineGenerator, CurveGenerator and the geometry they use), and the
    properties of it that the specification states.

    Numbers.  [QPointF] coordinates are Python floats; they are modelled
    as exact rationals [Q], so every statement below is about the
    arithmetic the code writes down, without rounding.  Elapsed times are
    the integer milliseconds returned by [QTime.restart()], modelled as
    [Z].  Equality of rationals is [==] ([Qeq]); the comparisons of the
    source are the boolean tests below.  Where the source compares two
    [QPointF] ([!=]), the comparison is the one of Qt, which takes
    coordinates that differ by at most 1e-12 for equal.

    Generators.  Each filter of the source is a Python generator that keeps
    its local variables across [send()] calls and pushes its results into
    the next filter.  Here a filter is a record of those local variables, a
    [_send] function from a state and a message to the next state and what
    is pushed downstream, and a [_close] function for its [finally] block. *)

From Stdlib Require Import QArith Qabs Qminmax ZArith List Bool Lia Lqa.
Import ListNotations.

Local Open Scope Q_scope.

(** ** Comparisons of the source, as boolean tests on [Q] *)

Definition Qgtb (a b : Q) : bool := negb (Qle_bool a b).   (* a > b  *)
Definition Qltb (a b : Q) : bool := negb (Qle_bool b a).   (* a < b  *)
Definition Qgeb (a b : Q) : bool := Qle_bool b a.          (* a >= b *)
Definition Qleb (a b : Q) : bool := Qle_bool a b.          (* a <= b *)
Definition Qneqb (a b : Q) : bool := negb (Qeq_bool a b).  (* a != b *)

(** ** Points, vectors and lines (the part of Qt the code uses) *)

Record QPointF : Type := mkQPointF { px : Q; py : Q }.

Record QLineF : Type := mkQLineF { p1 : QPointF; p2 : QPointF }.

(** [QPointF.__sub__]: the vector between two points. *)
Definition psub (a b : QPointF) : QPointF :=
  mkQPointF (px a - px b) (py a - py b).

(** [qFuzzyIsNull] of Qt, on a double: [qAbs(d) <= 0.000000000001]. *)
Definition qFuzzyIsNull (d : Q) : bool :=
  Qleb (Qabs d) (1 # 1000000000000).

(** [QPointF.__ne__] is the [operator!=] of Qt, a fuzzy comparison:
    [!qFuzzyIsNull(p1.x - p2.x) || !qFuzzyIsNull(p1.y - p2.y)]. *)
Definition pneqb (a b : QPointF) : bool :=
  negb (qFuzzyIsNull (px a - px b)) || negb (qFuzzyIsNull (py a - py b)).

(** Two points coincide when their coordinates are equal rationals. *)
Definition Peq (a b : QPointF) : Prop := px a == px b /\ py a == py b.

(** Two points that the comparison of [QPointF] takes for equal: neither
    coordinate differs by more than 1e-12. *)
Definition fuzzyEqual (a b : QPointF) : Prop :=
  Qabs (px a - px b) <= 1 # 1000000000000
  /\ Qabs (py a - py b) <= 1 # 1000000000000.

(** ** Utility *)

Definition sign (x : Q) : Z :=
  if Qgtb x 0 then 1%Z
  else if Qltb x 0 then (-1)%Z
  else 0%Z.

Definition crossProduct (a b : QPointF) : Q :=
  px a * py b - py a * px b.

Definition nullLine (point : QPointF) : QLineF := mkQLineF point point.

(** ** Parameters of the source *)

Definition ALPHAMAX : Q := 12 # 10.

Definition MAX_POINTER_ELAPSED_FOR_SMOOTH : Z := 100%Z.

(** ** Turn detecting filter *)

Definition detectTurn (position1 position2 : QPointF) : option QPointF :=
  if Qneqb (px position1) (px position2) && Qneqb (py position1) (py position2)
  then Some position2
  else None.

(** Local variables of [TurnGenerator].  [position] is [None] until the
    first position is sent. *)
Record TurnState : Type := mkTurnState {
  position : option QPointF;
  previousPosition : QPointF
}.

Definition TurnGenerator (startPosition : QPointF) : TurnState :=
  mkTurnState None startPosition.

(** One iteration of the loop of [TurnGenerator]: the position sent, and
    the elapsed time that [positionClock.restart()] returns for it.  The
    result is the next state and the turn sent to the line generator, if
    any. *)
Definition TurnGenerator_send (s : TurnState) (newPosition : QPointF)
    (positionElapsedTime : Z) : TurnState * option (QPointF * Z) :=
  match detectTurn (previousPosition s) newPosition with
  | Some turn =>
      (mkTurnState (Some newPosition) newPosition,
       Some (turn, positionElapsedTime))
  | None =>
      (mkTurnState (Some newPosition) (previousPosition s), None)
  end.

(** The [finally] block of [TurnGenerator]: [previousPosition != position]
    is the comparison of two [QPointF], and holds when [position] is still
    [None]. *)
Definition TurnGenerator_close (s : TurnState) : option (option QPointF * Z) :=
  let differs :=
    match position s with
    | Some p => pneqb (previousPosition s) p
    | None => true
    end in
  if differs then Some (position s, 0%Z) else None.

(** The positions of a stroke, sent one after the other; the turns sent
    downstream are collected in order. *)
Fixpoint TurnGenerator_run (s : TurnState) (events : list (QPointF * Z))
  : TurnState * list (QPointF * Z) :=
  match events with
  | [] => (s, [])
  | (newPosition, elapsed) :: rest =>
      let '(s1, out) := TurnGenerator_send s newPosition elapsed in
      let '(s2, outs) := TurnGenerator_run s1 rest in
      (s2, match out with Some t => t :: outs | None => outs end)
  end.

(** ** Line fitting filter: constraints *)

Record Constraints : Type := mkConstraints {
  constraintLeft : QPointF;
  constraintRight : QPointF
}.

(** [Constraints.__init__]: null vectors. *)
Definition Constraints_init : Constraints :=
  mkConstraints (mkQPointF 0 0) (mkQPointF 0 0).

Definition isViolatedBy (c : Constraints) (vector : QPointF) : bool :=
  Qltb (crossProduct (constraintLeft c) vector) 0
  || Qgtb (crossProduct (constraintRight c) vector) 0.

(** The first [offset] of [Constraints.update]. *)
Definition offsetLeft (v : QPointF) : QPointF :=
  mkQPointF
    (px v + (if Qgeb (py v) 0 && (Qgtb (py v) 0 || Qltb (px v) 0) then 1 else - (1)))
    (py v + (if Qleb (px v) 0 && (Qltb (px v) 0 || Qltb (py v) 0) then 1 else - (1))).

(** The second [offset] of [Constraints.update]. *)
Definition offsetRight (v : QPointF) : QPointF :=
  mkQPointF
    (px v + (if Qleb (py v) 0 && (Qltb (py v) 0 || Qltb (px v) 0) then 1 else - (1)))
    (py v + (if Qgeb (px v) 0 && (Qgtb (px v) 0 || Qltb (py v) 0) then 1 else - (1))).

Definition update (c : Constraints) (v : QPointF) : Constraints :=
  let offset := offsetLeft v in
  let left :=
    if Qgeb (crossProduct (constraintLeft c) offset) 0 then offset
    else constraintLeft c in
  let offset := offsetRight v in
  let right :=
    if Qleb (crossProduct (constraintRight c) offset) 0 then offset
    else constraintRight c in
  mkConstraints left right.

(** ** Line fitting filter *)

Definition interpolateConstraintViolating
    (startTurn lastSatisfyingTurn firstNonsatisfingTurn : QPointF) : QLineF :=
  mkQLineF startTurn lastSatisfyingTurn.

(** [lineFromPath] mutates the [constraints] object it is given; the
    object after the call is returned with the result. *)
Definition lineFromPath (startTurn previousTurn currentTurn : QPointF)
    (constraints : Constraints) : option QLineF * Constraints :=
  let vectorViaAllTurns := psub currentTurn startTurn in
  if isViolatedBy constraints vectorViaAllTurns then
    let result :=
      interpolateConstraintViolating startTurn previousTurn currentTurn in
    (Some result, Constraints_init)
  else
    (None, update constraints vectorViaAllTurns).

Definition forceLineFromPath (startTurn previousTurn currentTurn : QPointF)
    (constraints : Constraints) : QLineF * Constraints :=
  (mkQLineF startTurn currentTurn, Constraints_init).

(** Local variables of [LineGenerator]. *)
Record LineState : Type := mkLineState {
  startTurn : QPointF;
  previousTurn : QPointF;
  constraints : Constraints
}.

Definition LineGenerator (startPosition : QPointF) : LineState :=
  mkLineState startPosition startPosition Constraints_init.

(** One iteration of the loop of [LineGenerator]: the next state and the
    [(line, isLineForced)] sent to the curve generator, if any. *)
Definition LineGenerator_send (s : LineState) (turn : QPointF)
    (positionElapsedTime : Z) : LineState * option (QLineF * bool) :=
  let '(line, constraints1) :=
    lineFromPath (startTurn s) (previousTurn s) turn (constraints s) in
  match line with
  | Some line =>
      (mkLineState (previousTurn s) turn constraints1, Some (line, false))
  | None =>
      if (positionElapsedTime >? MAX_POINTER_ELAPSED_FOR_SMOOTH)%Z then
        let '(forcedLine, constraints2) :=
          forceLineFromPath (startTurn s) (previousTurn s) turn constraints1 in
        (mkLineState (previousTurn s) turn constraints2, Some (forcedLine, true))
      else
        (mkLineState (startTurn s) turn constraints1, None)
  end.

(** The [finally] block of [LineGenerator]: [previousTurn != startTurn] is
    the comparison of two [QPointF]; the flag it sends is [0]. *)
Definition LineGenerator_close (s : LineState) : option (QLineF * bool) :=
  if pneqb (previousTurn s) (startTurn s)
  then Some (mkQLineF (startTurn s) (previousTurn s), false)
  else None.

Fixpoint LineGenerator_run (s : LineState) (turns : list (QPointF * Z))
  : LineState * list (QLineF * bool) :=
  match turns with
  | [] => (s, [])
  | (turn, elapsed) :: rest =>
      let '(s1, out) := LineGenerator_send s turn elapsed in
      let '(s2, outs) := LineGenerator_run s1 rest in
      (s2, match out with Some l => l :: outs | None => outs end)
  end.

(** ** Graphic path elements

    The source represents a line element as the 1-tuple [(endPoint,)] and
    a spline element as the 3-tuple [(controlPoint1, controlPoint2, endPt)];
    [AddingGraphicsPathItem.addItem] tells them apart by their length. *)

Inductive GraphicElement : Type :=
| LinePathElement (endPoint : QPointF)
| SplinePathElement (controlPoint1 controlPoint2 endPt : QPointF).

Definition endpoint (e : GraphicElement) : QPointF :=
  match e with
  | LinePathElement q => q
  | SplinePathElement _ _ q => q
  end.

(** ** Curve fitting filter: auxiliary functions *)

Definition createLinePathElement (endPoint : QPointF) : GraphicElement :=
  LinePathElement endPoint.

Definition createCusp (cuspPoint endPoint : QPointF)
  : list GraphicElement * QPointF :=
  ([createLinePathElement cuspPoint; createLinePathElement endPoint], endPoint).

Definition createSplinePathElement (controlPoint1 controlPoint2 endPt : QPointF)
  : list GraphicElement * QPointF :=
  ([SplinePathElement controlPoint1 controlPoint2 endPt], endPt).

Definition interval (fraction : Q) (point1 point2 : QPointF) : QPointF :=
  mkQPointF (px point1 + fraction * (px point2 - px point1))
            (py point1 + fraction * (py point2 - py point1)).

Definition cardinalDirectionLeft90 (p0 p1 : QPointF) : QPointF :=
  mkQPointF (inject_Z (- sign (py p1 - py p0)))
            (inject_Z (sign (px p1 - px p0))).

Definition ddenom (p0 p1 : QPointF) : Q :=
  let r := cardinalDirectionLeft90 p0 p1 in
  py r * (px p1 - px p0) - px r * (py p1 - py p0).

Definition areaOfParallelogram (p0 p1 p2 : QPointF) : Q :=
  (px p1 - px p0) * (py p2 - py p0) - (px p2 - px p0) * (py p1 - py p0).

Definition clampAlpha (alpha : Q) : Q :=
  if Qltb alpha (55 # 100) then 55 # 100
  else if Qgtb alpha 1 then 1
  else alpha.

(** The value of [alpha] that [curvesFromLineMidToMid] computes from its
    three points (the statements between [denom = ...] and the test
    against [ALPHAMAX]). *)
Definition alphaOf (point1 point2 point3 : QPointF) : Q :=
  let denom := ddenom point1 point3 in
  if Qneqb denom 0 then
    let dd := Qabs (areaOfParallelogram point1 point2 point3 / denom) in
    if Qgtb dd 1 then (1 - 1 / dd) / (75 # 100)
    else 0
  else 4 / 3.

(** The midpoint of a PathLine, as the source computes it
    ([interval(1/2.0, p2, p1)]). *)
Definition midpoint (line : QLineF) : QPointF :=
  interval (1 / 2) (p2 line) (p1 line).

(** ** The drawn path and its ghost *)

(** [AddingGraphicsPathItem]: a [QPainterPath] that starts at
    [startingPoint] and to which elements are added at its end. *)
Record AddingGraphicsPathItem : Type := mkPath {
  startingPoint : QPointF;
  elements : list GraphicElement
}.

Definition addItem (path : AddingGraphicsPathItem) (item : GraphicElement)
  : AddingGraphicsPathItem :=
  mkPath (startingPoint path) (elements path ++ [item]).

(** [QPainterPath.currentPosition]: where the next [lineTo] or [cubicTo]
    starts. *)
Definition currentPosition (path : AddingGraphicsPathItem) : QPointF :=
  last (map endpoint (elements path)) (startingPoint path).

(** The elements of a path with the start point each of them is drawn
    from: the current position of the path when it was added. *)
Fixpoint segmentsFrom (start : QPointF) (items : list GraphicElement)
  : list (QPointF * GraphicElement) :=
  match items with
  | [] => []
  | item :: rest => (start, item) :: segmentsFrom (endpoint item) rest
  end.

Definition segments (path : AddingGraphicsPathItem)
  : list (QPointF * GraphicElement) :=
  segmentsFrom (startingPoint path) (elements path).

(** A sequence of drawn elements has no gap when each one starts where
    the one before it ends, the first one at [from]. *)
Fixpoint connected (from : QPointF) (segs : list (QPointF * GraphicElement))
  : Prop :=
  match segs with
  | [] => True
  | (start, item) :: rest => start = from /\ connected (endpoint item) rest
  end.

(** ** Curve fitting filter

    The functions below read the global [ALPHAMAX]; it is the variable
    [alphamax] of this section, so that other settings of the parameter
    can be stated.  The source runs them at [ALPHAMAX]. *)

Section CurveFitting.

Variable alphamax : Q.

Definition curvesFromLineMidToMid (line1 line2 : QLineF)
  : list GraphicElement * QPointF :=
  let point1 := p1 line1 in
  let point2 := p2 line1 in
  let point3 := p2 line2 in
  let midpoint2 := interval (1 / 2) point3 point2 in
  let alpha := alphaOf point1 point2 point3 in
  if Qgtb alpha alphamax then
    createCusp point2 midpoint2
  else
    let alpha := clampAlpha alpha in
    createSplinePathElement
      (interval ((5 # 10) + (5 # 10) * alpha) point1 point2)
      (interval ((5 # 10) + (5 # 10) * alpha) point3 point2)
      midpoint2.

Definition curvesFromLineMidToEnd (line1 line2 : QLineF)
  : list GraphicElement * QPointF :=
  let '(midToMidCurves, pathEndPoint) := curvesFromLineMidToMid line1 line2 in
  let finalEndPoint := p2 line2 in
  let midToEnd := createLinePathElement finalEndPoint in
  (midToMidCurves ++ [midToEnd], finalEndPoint).

(** Local variable of [CurveGenerator], with the two objects of the tool
    it writes to: the path ([self.path]) and the start of the ghost
    ([self.pathTailGhost.start]). *)
Record CurveState : Type := mkCurveState {
  previousLine : QLineF;
  path : AddingGraphicsPathItem;
  ghostStart : QPointF
}.

(** [pointerPressEvent]: the curve generator starts from the null line at
    the start position, the path and the ghost start there. *)
Definition CurveGenerator (startPosition : QPointF) : CurveState :=
  mkCurveState (nullLine startPosition) (mkPath startPosition []) startPosition.

(** The first half of an iteration of [CurveGenerator]: the curves, the
    end of the path and the next [previousLine]. *)
Definition CurveGenerator_fit (previousLine line : QLineF) (isLineForced : bool)
  : list GraphicElement * QPointF * QLineF :=
  if isLineForced then
    let '(curves, pathEndPoint) := curvesFromLineMidToEnd previousLine line in
    (curves, pathEndPoint, nullLine pathEndPoint)
  else
    let '(curves, pathEndPoint) := curvesFromLineMidToMid previousLine line in
    (curves, pathEndPoint, line).

(** One iteration of the loop of [CurveGenerator]. *)
Definition CurveGenerator_send (s : CurveState) (line : QLineF)
    (isLineForced : bool) : CurveState :=
  let '(curves, pathEndPoint, previousLine1) :=
    CurveGenerator_fit (previousLine s) line isLineForced in
  mkCurveState previousLine1 (fold_left addItem curves (path s)) pathEndPoint.

Definition CurveGenerator_run (s : CurveState) (lines : list (QLineF * bool))
  : CurveState :=
  fold_left (fun s m => CurveGenerator_send s (fst m) (snd m)) lines s.

(** ** The pipe of filters

    The tool holds the three generators; a send into one runs the sends
    into the next ones before it returns. *)

Record FreehandTool : Type := mkFreehandTool {
  turnGenerator : TurnState;
  lineGenerator : LineState;
  curveGenerator : CurveState
}.

(** [pointerPressEvent]: [initFilterPipe], a new path and the ghost, all at
    the position of the event. *)
Definition pointerPressEvent (startPosition : QPointF) : FreehandTool :=
  mkFreehandTool (TurnGenerator startPosition) (LineGenerator startPosition)
                 (CurveGenerator startPosition).

(** What the line generator sends, if anything, goes into the curve
    generator. *)
Definition sendLine (c : CurveState) (sent : option (QLineF * bool)) : CurveState :=
  match sent with
  | Some (line, isLineForced) => CurveGenerator_send c line isLineForced
  | None => c
  end.

(** [pointerMoveEvent]: the position of the event, with the time the
    clock of the turn generator gives for it, is fed into the pipe. *)
Definition pointerMoveEvent (tool : FreehandTool) (event : QPointF * Z)
  : FreehandTool :=
  let '(newPosition, elapsed) := event in
  let '(turns, turn) :=
    TurnGenerator_send (turnGenerator tool) newPosition elapsed in
  match turn with
  | Some (turn, positionElapsedTime) =>
      let '(lines, sent) :=
        LineGenerator_send (lineGenerator tool) turn positionElapsedTime in
      mkFreehandTool turns lines (sendLine (curveGenerator tool) sent)
  | None => mkFreehandTool turns (lineGenerator tool) (curveGenerator tool)
  end.

(** [closeFilterPipe]: the turn generator is closed, then the line
    generator, then the curve generator.  When the turn generator sends a
    last turn, the line generator takes it before its own [finally] block
    runs; when it sends [None] for a position (no position was ever sent),
    the line generator fails on it, which its handler catches, and ends
    through the same [finally] block. *)
Definition closeFilterPipe (tool : FreehandTool) : FreehandTool :=
  match TurnGenerator_close (turnGenerator tool) with
  | Some (Some turn, positionElapsedTime) =>
      let '(lines, sent) :=
        LineGenerator_send (lineGenerator tool) turn positionElapsedTime in
      mkFreehandTool (turnGenerator tool) lines
        (sendLine (sendLine (curveGenerator tool) sent) (LineGenerator_close lines))
  | Some (None, _) | None =>
      mkFreehandTool (turnGenerator tool) (lineGenerator tool)
        (sendLine (curveGenerator tool) (LineGenerator_close (lineGenerator tool)))
  end.

(** [pointerReleaseEvent]: the pipe is closed and a last line element to
    the position of the event is added to the path. *)
Definition pointerReleaseEvent (tool : FreehandTool) (releasePosition : QPointF)
  : FreehandTool :=
  let closed := closeFilterPipe tool in
  let c := curveGenerator closed in
  mkFreehandTool (turnGenerator closed) (lineGenerator closed)
    (mkCurveState (previousLine c)
       (addItem (path c) (createLinePathElement releasePosition))
       (ghostStart c)).

(** A whole stroke: press, moves, release. *)
Definition stroke (startPosition : QPointF) (events : list (QPointF * Z))
    (releasePosition : QPointF) : FreehandTool :=
  pointerReleaseEvent
    (fold_left pointerMoveEvent events (pointerPressEvent startPosition))
    releasePosition.

End CurveFitting.

(** The invariant of the curve generator: the ghost starts at the end of
    the drawn path, and the path still starts at the start position. *)
Definition ghostAtPathEnd (startPosition : QPointF) (c : CurveState) : Prop :=
  ghostStart c = currentPosition (path c)
  /\ startingPoint (path c) = startPosition.

(** ** [FreehandPoint] (freehandPoint.py)

    The real valued point of the curve generator, with the two methods
    the class adds to [QPointF]. *)

Module FreehandPoint.

Definition interval (self other : QPointF) (fraction : Q) : QPointF :=
  mkQPointF (px self + fraction * (px other - px self))
            (py self + fraction * (py other - py self)).

Definition cardinalDirectionLeft90 (self other : QPointF) : QPointF :=
  mkQPointF (inject_Z (- sign (py other - py self)))
            (inject_Z (sign (px other - px self))).

End FreehandPoint.

(** ** [Directions]

    The dictionary of the directions taken by a path: the keys are the
    integers [update] computes, every value is 1.  The dictionary is the
    list of its items in insertion order; the division is the floor
    division of Python 2 on integers. *)

Module Directions.

Definition t : Type := list (Z * Z).

(** [Directions.__init__]: the empty dictionary. *)
Definition init : t := [].

(** [Directions.__len__]. *)
Definition len (d : t) : nat := length d.

(** [dict[key] = value]: the value of a key that is there is replaced,
    a new key is added. *)
Fixpoint setitem (key value : Z) (d : t) : t :=
  match d with
  | [] => [(key, value)]
  | (k, v) :: rest =>
      if (k =? key)%Z then (k, value) :: rest
      else (k, v) :: setitem key value rest
  end.

(** The key that [update] computes from the vector between two turns. *)
Definition direction (vectorBetweenTurns : QPointF) : Z :=
  ((3 + 3 * sign (px vectorBetweenTurns) + sign (py vectorBetweenTurns)) / 2)%Z.

Definition update (d : t) (turn1 turn2 : QPointF) : t :=
  let vectorBetweenTurns := psub turn2 turn1 in
  setitem (direction vectorBetweenTurns) 1%Z d.

Definition reset (d : t) : t := init.

Definition keys (d : t) : list Z := map fst d.

End Directions.

(** ** Notions used in the statements *)

(** Two positions that are on no common axis: they differ in both
    coordinates. *)
Definition offAxis (a b : QPointF) : Prop :=
  ~ px a == px b /\ ~ py a == py b.

(** Every turn of the sequence is off the axes of the one before it, the
    first one off the axes of [previous]. *)
Fixpoint eachOffAxis (previous : QPointF) (turns : list (QPointF * Z)) : Prop :=
  match turns with
  | [] => True
  | (turn, _) :: rest => offAxis previous turn /\ eachOffAxis turn rest
  end.

(** [subsequence l1 l2]: [l1] is [l2] with some elements left out. *)
Inductive subsequence {A : Type} : list A -> list A -> Prop :=
| subsequence_nil : subsequence [] []
| subsequence_skip (x : A) (l1 l2 : list A) :
    subsequence l1 l2 -> subsequence l1 (x :: l2)
| subsequence_take (x : A) (l1 l2 : list A) :
    subsequence l1 l2 -> subsequence (x :: l1) (x :: l2).

(** The PathLines of a sequence follow each other: a line starts at
    [start] when it is known, and the line after an unforced line starts
    where that line ends.  (After a forced line the start of the next line
    is not the end of the forced line, and is left open here.) *)
Fixpoint linesFollow (start : option QPointF) (lines : list (QLineF * bool))
  : Prop :=
  match lines with
  | [] => True
  | (line, isLineForced) :: rest =>
      match start with Some q => p1 line = q | None => True end
      /\ linesFollow (if isLineForced then None else Some (p2 line)) rest
  end.

(** What a generator sends at a step, as a list. *)
Definition sentList {A : Type} (sent : option A) : list A :=
  match sent with Some x => [x] | None => [] end.

(** The position of the last event, or [start] when there is none. *)
Definition lastPosition (start : QPointF) (events : list (QPointF * Z)) : QPointF :=
  last (map fst events) start.

(** * Properties *)

(** ** Reflection of the boolean comparisons *)

Lemma Qgtb_true (a b : Q) : Qgtb a b = true <-> b < a.
Proof.
  unfold Qgtb. rewrite negb_true_iff. split; intro H.
  - apply Qnot_le_lt. intro Hle. apply Qle_bool_iff in Hle. congruence.
  - destruct (Qle_bool a b) eqn:E; [|reflexivity].
    apply Qle_bool_iff in E. exfalso. lra.
Qed.

Lemma Qgtb_false (a b : Q) : Qgtb a b = false <-> a <= b.
Proof.
  unfold Qgtb. rewrite negb_false_iff. apply Qle_bool_iff.
Qed.

Lemma Qltb_true (a b : Q) : Qltb a b = true <-> a < b.
Proof. exact (Qgtb_true b a). Qed.

Lemma Qltb_false (a b : Q) : Qltb a b = false <-> b <= a.
Proof. exact (Qgtb_false b a). Qed.


Lemma Qleb_true (a b : Q) : Qleb a b = true <-> a <= b.
Proof. apply Qle_bool_iff. Qed.

Lemma Qneqb_true (a b : Q) : Qneqb a b = true <-> ~ a == b.
Proof.
  unfold Qneqb. rewrite negb_true_iff. split; intro H.
  - now apply Qeq_bool_neq.
  - destruct (Qeq_bool a b) eqn:E; [|reflexivity].
    apply Qeq_bool_iff in E. contradiction.
Qed.

Lemma Qneqb_false (a b : Q) : Qneqb a b = false <-> a == b.
Proof.
  unfold Qneqb. rewrite negb_false_iff. apply Qeq_bool_iff.
Qed.

(** ** The curvature test *)

Lemma sign_mult_abs (x : Q) : inject_Z (sign x) * x == Qabs x.
Proof.
  unfold sign.
  destruct (Qgtb x 0) eqn:Hgt.
  - apply Qgtb_true in Hgt. rewrite Qabs_pos by lra.
    change (inject_Z 1) with 1. lra.
  - apply Qgtb_false in Hgt.
    destruct (Qltb x 0) eqn:Hlt.
    + rewrite Qabs_neg by lra. change (inject_Z (-1)) with (-(1)). lra.
    + apply Qltb_false in Hlt. rewrite Qabs_pos by lra.
      change (inject_Z 0) with 0. lra.
Qed.

Lemma ddenom_abs (p0 p1 : QPointF) :
  ddenom p0 p1 == Qabs (px p1 - px p0) + Qabs (py p1 - py p0).
Proof.
  unfold ddenom, cardinalDirectionLeft90; cbn [px py].
  rewrite inject_Z_opp.
  rewrite <- (sign_mult_abs (px p1 - px p0)), <- (sign_mult_abs (py p1 - py p0)).
  lra.
Qed.

Lemma ddenom_nonneg (p0 p1 : QPointF) : 0 <= ddenom p0 p1.
Proof.
  rewrite ddenom_abs.
  pose proof (Qabs_nonneg (px p1 - px p0)).
  pose proof (Qabs_nonneg (py p1 - py p0)). lra.
Qed.

Lemma Qabs_zero_iff (x : Q) : Qabs x == 0 <-> x == 0.
Proof.
  split; intro H.
  - destruct (Qabs_Qle_condition x 0) as [Hc _].
    assert (Hle : Qabs x <= 0) by (rewrite H; apply Qle_refl).
    specialize (Hc Hle). lra.
  - rewrite H. reflexivity.
Qed.

Lemma ddenom_zero_iff (p0 p1 : QPointF) : ddenom p0 p1 == 0 <-> Peq p0 p1.
Proof.
  rewrite ddenom_abs. unfold Peq.
  pose proof (Qabs_nonneg (px p1 - px p0)) as Hx.
  pose proof (Qabs_nonneg (py p1 - py p0)) as Hy.
  split.
  - intro H.
    assert (Hx0 : Qabs (px p1 - px p0) == 0) by lra.
    assert (Hy0 : Qabs (py p1 - py p0) == 0) by lra.
    apply (proj1 (Qabs_zero_iff _)) in Hx0.
    apply (proj1 (Qabs_zero_iff _)) in Hy0. split; lra.
  - intros [Ex Ey].
    assert (Hx0 : px p1 - px p0 == 0) by lra.
    assert (Hy0 : py p1 - py p0 == 0) by lra.
    rewrite Hx0, Hy0. reflexivity.
Qed.

Lemma smooth_alpha_bounds (dd : Q) :
  1 < dd -> 0 <= (1 - 1 / dd) / (75 # 100) /\ (1 - 1 / dd) / (75 # 100) < 4 # 3.
Proof.
  intro H.
  assert (Hpos : 0 < / dd) by (apply Qinv_lt_0_compat; lra).
  assert (Hinv : dd * / dd == 1) by (apply Qmult_inv_r; lra).
  assert (Hlt : / dd < 1) by nra.
  unfold Qdiv.
  assert (E : / (75 # 100) == 4 # 3) by reflexivity.
  rewrite E. split; lra.
Qed.

Lemma alphaOf_degenerate (point1 point2 point3 : QPointF) :
  Peq point1 point3 -> alphaOf point1 point2 point3 = 4 / 3.
Proof.
  intro H. apply ddenom_zero_iff in H. apply Qneqb_false in H.
  unfold alphaOf. cbv zeta. rewrite H. reflexivity.
Qed.

Lemma alphaOf_regular (point1 point2 point3 : QPointF) :
  ~ Peq point1 point3 ->
  0 <= alphaOf point1 point2 point3 /\ alphaOf point1 point2 point3 < 4 # 3.
Proof.
  intro H.
  assert (Hd : Qneqb (ddenom point1 point3) 0 = true).
  { apply Qneqb_true. intro E. apply H. now apply ddenom_zero_iff. }
  unfold alphaOf. cbv zeta. rewrite Hd.
  destruct (Qgtb _ 1) eqn:Hdd.
  - apply Qgtb_true in Hdd. now apply smooth_alpha_bounds.
  - split; lra.
Qed.

Lemma alphaOf_range (point1 point2 point3 : QPointF) :
  0 <= alphaOf point1 point2 point3 <= 4 # 3.
Proof.
  destruct (Qneqb (ddenom point1 point3) 0) eqn:Hd.
  - apply Qneqb_true in Hd.
    assert (Hne : ~ Peq point1 point3).
    { intro E. apply Hd. now apply ddenom_zero_iff. }
    destruct (alphaOf_regular point1 point2 point3 Hne). split; lra.
  - apply Qneqb_false, ddenom_zero_iff in Hd.
    rewrite (alphaOf_degenerate point1 point2 point3 Hd).
    split; [discriminate | apply Qle_refl].
Qed.

(** C10.  For all points [p0] and [p1], [ddenom p0 p1] is
    [|p1.x - p0.x| + |p1.y - p0.y|]; it is zero exactly when the two points
    coincide.  Hence in the mid-to-mid fit the test [denom != 0.0] fails,
    and [alpha] takes the degenerate value 4/3, exactly when [point1] and
    [point3] coincide: whenever they differ (in particular for three
    distinct collinear points) [alpha] stays strictly below 4/3. *)
Theorem ddenom_is_taxicab_length (p0 p1 point2 : QPointF) :
  ddenom p0 p1 == Qabs (px p1 - px p0) + Qabs (py p1 - py p0)
  /\ (ddenom p0 p1 == 0 <-> Peq p0 p1)
  /\ (Qneqb (ddenom p0 p1) 0 = false <-> Peq p0 p1)
  /\ (alphaOf p0 point2 p1 == 4 # 3 <-> Peq p0 p1).
Proof.
  split; [apply ddenom_abs|].
  split; [apply ddenom_zero_iff|].
  split.
  - rewrite Qneqb_false. apply ddenom_zero_iff.
  - split.
    + intro E.
      destruct (Qneqb (ddenom p0 p1) 0) eqn:Hd.
      * apply Qneqb_true in Hd.
        assert (Hne : ~ Peq p0 p1).
        { intro P. apply Hd. now apply ddenom_zero_iff. }
        destruct (alphaOf_regular p0 point2 p1 Hne). lra.
      * now apply Qneqb_false, ddenom_zero_iff in Hd.
    + intro P. rewrite (alphaOf_degenerate p0 point2 p1 P). reflexivity.
Qed.

(** ** The mid-to-mid fit *)

Lemma clampAlpha_range (alpha : Q) : 55 # 100 <= clampAlpha alpha <= 1.
Proof.
  unfold clampAlpha.
  destruct (Qltb alpha (55 # 100)) eqn:Hlo.
  - split; discriminate.
  - apply Qltb_false in Hlo.
    destruct (Qgtb alpha 1) eqn:Hhi.
    + split; discriminate.
    + apply Qgtb_false in Hhi. split; assumption.
Qed.

Lemma clampAlpha_minmax (alpha : Q) :
  clampAlpha alpha == Qmax (55 # 100) (Qmin 1 alpha).
Proof.
  unfold clampAlpha.
  destruct (Qltb alpha (55 # 100)) eqn:Hlo.
  - apply Qltb_true in Hlo.
    rewrite (Q.min_r 1 alpha) by lra. rewrite Q.max_l by lra. reflexivity.
  - apply Qltb_false in Hlo.
    destruct (Qgtb alpha 1) eqn:Hhi.
    + apply Qgtb_true in Hhi.
      rewrite (Q.min_l 1 alpha) by lra. rewrite Q.max_r by lra. reflexivity.
    + apply Qgtb_false in Hhi.
      rewrite (Q.min_r 1 alpha) by lra. rewrite Q.max_r by lra. reflexivity.
Qed.

Lemma midToMid_cusp (alphamax : Q) (line1 line2 : QLineF) :
  alphamax < alphaOf (p1 line1) (p2 line1) (p2 line2) ->
  curvesFromLineMidToMid alphamax line1 line2
  = ([LinePathElement (p2 line1);
      LinePathElement (interval (1 / 2) (p2 line2) (p2 line1))],
     interval (1 / 2) (p2 line2) (p2 line1)).
Proof.
  intro H. apply Qgtb_true in H.
  unfold curvesFromLineMidToMid. cbv zeta. rewrite H. reflexivity.
Qed.

Lemma midToMid_spline (alphamax : Q) (line1 line2 : QLineF) :
  alphaOf (p1 line1) (p2 line1) (p2 line2) <= alphamax ->
  curvesFromLineMidToMid alphamax line1 line2
  = (let a := clampAlpha (alphaOf (p1 line1) (p2 line1) (p2 line2)) in
     ([SplinePathElement
         (interval ((5 # 10) + (5 # 10) * a) (p1 line1) (p2 line1))
         (interval ((5 # 10) + (5 # 10) * a) (p2 line2) (p2 line1))
         (interval (1 / 2) (p2 line2) (p2 line1))],
      interval (1 / 2) (p2 line2) (p2 line1))).
Proof.
  intro H. apply Qgtb_false in H.
  unfold curvesFromLineMidToMid. cbv zeta. rewrite H. reflexivity.
Qed.

(** C5.  In the mid-to-mid fit of two lines sharing the joint [point2]:
    if the computed alpha is strictly greater than the threshold, the
    result is exactly two line elements, the first ending at [point2] and
    the second at the midpoint of the second line; otherwise alpha is
    clamped into [0.55, 1] and the result is one spline element with
    controls [interval(0.5+0.5*alpha, point1, point2)] and
    [interval(0.5+0.5*alpha, point3, point2)], ending at that midpoint.
    (Stated for every threshold; the source's is [ALPHAMAX].) *)
Theorem midToMid_cusp_or_clamped_spline (alphamax : Q) (line1 line2 : QLineF) :
  p1 line2 = p2 line1 ->
  let point1 := p1 line1 in
  let point2 := p2 line1 in
  let point3 := p2 line2 in
  let alpha := alphaOf point1 point2 point3 in
  (alphamax < alpha ->
   curvesFromLineMidToMid alphamax line1 line2
   = ([LinePathElement point2; LinePathElement (midpoint line2)],
      midpoint line2))
  /\
  (alpha <= alphamax ->
   exists a : Q,
     a == Qmax (55 # 100) (Qmin 1 alpha)
     /\ 55 # 100 <= a <= 1
     /\ curvesFromLineMidToMid alphamax line1 line2
        = ([SplinePathElement
              (interval ((5 # 10) + (5 # 10) * a) point1 point2)
              (interval ((5 # 10) + (5 # 10) * a) point3 point2)
              (midpoint line2)],
           midpoint line2)).
Proof.
  intros Hjoint point1 point2 point3 alpha.
  unfold midpoint. rewrite Hjoint. fold point2 point3.
  split.
  - intro H. now apply midToMid_cusp.
  - intro H. exists (clampAlpha alpha).
    split; [apply clampAlpha_minmax|].
    split; [apply clampAlpha_range|].
    now apply midToMid_spline.
Qed.

Lemma midToMid_cusp_or_clamped_spline_witness :
  let line1 := mkQLineF (mkQPointF 0 0) (mkQPointF 4 4) in
  let line2 := mkQLineF (mkQPointF 4 4) (mkQPointF 8 0) in
  (ALPHAMAX < alphaOf (p1 line1) (p2 line1) (p2 line2) ->
   curvesFromLineMidToMid ALPHAMAX line1 line2
   = ([LinePathElement (p2 line1); LinePathElement (midpoint line2)],
      midpoint line2))
  /\
  (alphaOf (p1 line1) (p2 line1) (p2 line2) <= ALPHAMAX ->
   exists a : Q,
     a == Qmax (55 # 100) (Qmin 1 (alphaOf (p1 line1) (p2 line1) (p2 line2)))
     /\ 55 # 100 <= a <= 1
     /\ curvesFromLineMidToMid ALPHAMAX line1 line2
        = ([SplinePathElement
              (interval ((5 # 10) + (5 # 10) * a) (p1 line1) (p2 line1))
              (interval ((5 # 10) + (5 # 10) * a) (p2 line2) (p2 line1))
              (midpoint line2)],
           midpoint line2)).
Proof.
  exact (midToMid_cusp_or_clamped_spline ALPHAMAX
           (mkQLineF (mkQPointF 0 0) (mkQPointF 4 4))
           (mkQLineF (mkQPointF 4 4) (mkQPointF 8 0)) eq_refl).
Defined.

(** C6.  For every triple of points the alpha of the mid-to-mid fit lies
    in [0, 4/3]; so a threshold below 0 sends every joint to the cusp
    branch (two line elements), and a threshold above 4/3 sends every
    joint to the spline branch (the cusp branch is unreachable). *)
Theorem alpha_range_and_threshold_extremes (alphamax : Q) (line1 line2 : QLineF) :
  let point1 := p1 line1 in
  let point2 := p2 line1 in
  let point3 := p2 line2 in
  let midpoint2 := interval (1 / 2) point3 point2 in
  0 <= alphaOf point1 point2 point3 <= 4 # 3
  /\ (alphamax < 0 ->
      curvesFromLineMidToMid alphamax line1 line2
      = ([LinePathElement point2; LinePathElement midpoint2], midpoint2))
  /\ (4 # 3 < alphamax ->
      exists controlPoint1 controlPoint2 : QPointF,
        curvesFromLineMidToMid alphamax line1 line2
        = ([SplinePathElement controlPoint1 controlPoint2 midpoint2], midpoint2)).
Proof.
  intros point1 point2 point3 midpoint2.
  pose proof (alphaOf_range point1 point2 point3) as [Hlo Hhi].
  split; [split; assumption|]. split.
  - intro H. apply midToMid_cusp. fold point1 point2 point3. lra.
  - intro H. eexists. eexists. apply midToMid_spline.
    fold point1 point2 point3. lra.
Qed.

Lemma alpha_range_and_threshold_extremes_witness :
  let line1 := mkQLineF (mkQPointF 0 0) (mkQPointF 10 0) in
  let line2 := mkQLineF (mkQPointF 10 0) (mkQPointF 20 0) in
  let line3 := mkQLineF (mkQPointF 10 0) (mkQPointF 0 0) in
  curvesFromLineMidToMid (-1 # 10) line1 line2
  = ([LinePathElement (p2 line1);
      LinePathElement (interval (1 / 2) (p2 line2) (p2 line1))],
     interval (1 / 2) (p2 line2) (p2 line1))
  /\ exists controlPoint1 controlPoint2 : QPointF,
       curvesFromLineMidToMid (14 # 10) line1 line3
       = ([SplinePathElement controlPoint1 controlPoint2
             (interval (1 / 2) (p2 line3) (p2 line1))],
          interval (1 / 2) (p2 line3) (p2 line1)).
Proof.
  split.
  - apply (alpha_range_and_threshold_extremes (-1 # 10)
             (mkQLineF (mkQPointF 0 0) (mkQPointF 10 0))
             (mkQLineF (mkQPointF 10 0) (mkQPointF 20 0))).
    reflexivity.
  - apply (alpha_range_and_threshold_extremes (14 # 10)
             (mkQLineF (mkQPointF 0 0) (mkQPointF 10 0))
             (mkQLineF (mkQPointF 10 0) (mkQPointF 0 0))).
    reflexivity.
Defined.

(** ** The collinear join *)

(** C1, the claim as stated fails.  For [point1 = (0,0)], [point2 = (10,0)],
    [point3 = (20,0)] the denominator [ddenom point1 point3] is 20, not 0;
    alpha is 0, which does not exceed [ALPHAMAX]; and the fit returns one
    element, which is not a pair of line elements. *)
Lemma collinear_join_denom_is_not_zero :
  let point1 := mkQPointF 0 0 in
  let point2 := mkQPointF 10 0 in
  let point3 := mkQPointF 20 0 in
  let curves :=
    fst (curvesFromLineMidToMid ALPHAMAX
           (mkQLineF point1 point2) (mkQLineF point2 point3)) in
  ddenom point1 point3 == 20
  /\ ~ ddenom point1 point3 == 0
  /\ alphaOf point1 point2 point3 == 0
  /\ ~ ALPHAMAX < alphaOf point1 point2 point3
  /\ length curves = 1%nat
  /\ (forall a b : QPointF, curves <> [LinePathElement a; LinePathElement b]).
Proof.
  cbv zeta. repeat split.
  - vm_compute. intro H. discriminate H.
  - vm_compute. intro H. discriminate H.
  - intros a b. vm_compute. intro H. discriminate H.
Qed.

(** C1, amended.  For the three collinear points (0,0), (10,0), (20,0) the
    mid-to-mid fit computes [denom = 20], hence [alpha = 0], which does not
    exceed [ALPHAMAX]; alpha is clamped to 0.55 and the fit returns a single
    spline element with controls (7.75, 0) and (12.25, 0), ending at the
    midpoint (15, 0). *)
Theorem collinear_join_is_a_spline :
  let point1 := mkQPointF 0 0 in
  let point2 := mkQPointF 10 0 in
  let point3 := mkQPointF 20 0 in
  ddenom point1 point3 == 20
  /\ alphaOf point1 point2 point3 == 0
  /\ clampAlpha (alphaOf point1 point2 point3) == 55 # 100
  /\ exists controlPoint1 controlPoint2 endPt : QPointF,
       curvesFromLineMidToMid ALPHAMAX
         (mkQLineF point1 point2) (mkQLineF point2 point3)
       = ([SplinePathElement controlPoint1 controlPoint2 endPt], endPt)
       /\ Peq controlPoint1 (mkQPointF (775 # 100) 0)
       /\ Peq controlPoint2 (mkQPointF (1225 # 100) 0)
       /\ Peq endPt (mkQPointF 15 0).
Proof.
  cbv zeta. split; [reflexivity|]. split; [reflexivity|].
  split; [reflexivity|].
  eexists. eexists. eexists. split.
  - vm_compute. reflexivity.
  - repeat split.
Qed.

(** ** The line fitter *)

Lemma isViolatedBy_true (c : Constraints) (v : QPointF) :
  isViolatedBy c v = true
  <-> crossProduct (constraintLeft c) v < 0
      \/ 0 < crossProduct (constraintRight c) v.
Proof.
  unfold isViolatedBy. rewrite orb_true_iff, Qltb_true, Qgtb_true. reflexivity.
Qed.

Lemma isViolatedBy_false (c : Constraints) (v : QPointF) :
  isViolatedBy c v = false
  <-> 0 <= crossProduct (constraintLeft c) v
      /\ crossProduct (constraintRight c) v <= 0.
Proof.
  unfold isViolatedBy. rewrite orb_false_iff, Qltb_false, Qgtb_false. reflexivity.
Qed.

Lemma crossProduct_zero_l (v : QPointF) : crossProduct (mkQPointF 0 0) v == 0.
Proof. unfold crossProduct; cbn [px py]. lra. Qed.

Lemma isViolatedBy_init (v : QPointF) : isViolatedBy Constraints_init v = false.
Proof.
  apply isViolatedBy_false. unfold Constraints_init; cbn [constraintLeft constraintRight].
  rewrite crossProduct_zero_l. split; apply Qle_refl.
Qed.

Lemma send_violated (s : LineState) (turn : QPointF) (elapsed : Z) :
  isViolatedBy (constraints s) (psub turn (startTurn s)) = true ->
  LineGenerator_send s turn elapsed
  = (mkLineState (previousTurn s) turn Constraints_init,
     Some (mkQLineF (startTurn s) (previousTurn s), false)).
Proof.
  intro H. unfold LineGenerator_send, lineFromPath. cbv zeta. rewrite H.
  reflexivity.
Qed.

Lemma send_forced (s : LineState) (turn : QPointF) (elapsed : Z) :
  isViolatedBy (constraints s) (psub turn (startTurn s)) = false ->
  (elapsed > MAX_POINTER_ELAPSED_FOR_SMOOTH)%Z ->
  LineGenerator_send s turn elapsed
  = (mkLineState (previousTurn s) turn Constraints_init,
     Some (mkQLineF (startTurn s) turn, true)).
Proof.
  intros H Ht. unfold LineGenerator_send, lineFromPath. cbv zeta. rewrite H.
  apply Z.gt_lt, Z.gtb_lt in Ht. rewrite Ht. reflexivity.
Qed.

Lemma send_waiting (s : LineState) (turn : QPointF) (elapsed : Z) :
  isViolatedBy (constraints s) (psub turn (startTurn s)) = false ->
  (elapsed <= MAX_POINTER_ELAPSED_FOR_SMOOTH)%Z ->
  LineGenerator_send s turn elapsed
  = (mkLineState (startTurn s) turn
       (update (constraints s) (psub turn (startTurn s))), None).
Proof.
  intros H Ht. unfold LineGenerator_send, lineFromPath. cbv zeta. rewrite H.
  destruct (elapsed >? MAX_POINTER_ELAPSED_FOR_SMOOTH)%Z eqn:E.
  - apply Z.gtb_lt in E. lia.
  - reflexivity.
Qed.

(** C3.  On every push where the vector from [startTurn] to the current
    turn violates the constraints (its cross product with the left bound is
    negative, or with the right bound positive), the line generator sends an
    unforced PathLine from [startTurn] to [previousTurn], resets the
    constraints to the zero pair and sets [startTurn = previousTurn]; the
    violating turn is not part of the line, it becomes [previousTurn]. *)
Theorem violation_emits_line_to_previousTurn
    (s : LineState) (turn : QPointF) (elapsed : Z) :
  crossProduct (constraintLeft (constraints s)) (psub turn (startTurn s)) < 0
  \/ 0 < crossProduct (constraintRight (constraints s)) (psub turn (startTurn s)) ->
  LineGenerator_send s turn elapsed
  = ({| startTurn := previousTurn s;
        previousTurn := turn;
        constraints := mkConstraints (mkQPointF 0 0) (mkQPointF 0 0) |},
     Some (mkQLineF (startTurn s) (previousTurn s), false)).
Proof.
  intro H. apply isViolatedBy_true in H. now apply send_violated.
Qed.

Lemma violation_emits_line_to_previousTurn_witness :
  let s := {| startTurn := mkQPointF 0 0;
              previousTurn := mkQPointF 5 1;
              constraints := mkConstraints (mkQPointF 6 0) (mkQPointF 4 2) |} in
  LineGenerator_send s (mkQPointF 1 5) 10
  = ({| startTurn := mkQPointF 5 1;
        previousTurn := mkQPointF 1 5;
        constraints := mkConstraints (mkQPointF 0 0) (mkQPointF 0 0) |},
     Some (mkQLineF (mkQPointF 0 0) (mkQPointF 5 1), false)).
Proof.
  apply (violation_emits_line_to_previousTurn
           {| startTurn := mkQPointF 0 0;
              previousTurn := mkQPointF 5 1;
              constraints := mkConstraints (mkQPointF 6 0) (mkQPointF 4 2) |}
           (mkQPointF 1 5) 10).
  right. vm_compute. reflexivity.
Defined.

(** C2, the claim as stated fails.  After the turn (5,1) from the start
    (0,0), the turn (1,5) arrives with an elapsed time of 200 ms, above
    [MAX_POINTER_ELAPSED_FOR_SMOOTH] (both positions are turns that the
    turn generator sends on); it violates the constraints, and the line
    sent on that push is the unforced line to the previous turn (5,1), not
    a forced line to (1,5). *)
Lemma slow_violating_turn_is_not_forced :
  let s := fst (LineGenerator_run (LineGenerator (mkQPointF 0 0))
                  [(mkQPointF 5 1, 10%Z)]) in
  (200 > MAX_POINTER_ELAPSED_FOR_SMOOTH)%Z
  /\ snd (TurnGenerator_run (TurnGenerator (mkQPointF 0 0))
            [(mkQPointF 5 1, 10%Z); (mkQPointF 1 5, 200%Z)])
     = [(mkQPointF 5 1, 10%Z); (mkQPointF 1 5, 200%Z)]
  /\ snd (LineGenerator_send s (mkQPointF 1 5) 200)
     = Some (mkQLineF (mkQPointF 0 0) (mkQPointF 5 1), false)
  /\ snd (LineGenerator_send s (mkQPointF 1 5) 200)
     <> Some (mkQLineF (mkQPointF 0 0) (mkQPointF 1 5), true).
Proof.
  cbv zeta. split; [reflexivity|]. split; [reflexivity|]. split.
  - vm_compute. reflexivity.
  - vm_compute. intro H. discriminate H.
Qed.

(** C2, amended.  For every push of a turn whose elapsed time exceeds
    [MAX_POINTER_ELAPSED_FOR_SMOOTH] and whose vector from [startTurn] does
    not violate the constraints, the line generator sends on that same push
    a forced PathLine from [startTurn] to the current turn, resets the
    constraints to the zero pair and sets [startTurn = previousTurn]. *)
Theorem slow_satisfying_turn_forces_line
    (s : LineState) (turn : QPointF) (elapsed : Z) :
  (elapsed > MAX_POINTER_ELAPSED_FOR_SMOOTH)%Z ->
  0 <= crossProduct (constraintLeft (constraints s)) (psub turn (startTurn s)) ->
  crossProduct (constraintRight (constraints s)) (psub turn (startTurn s)) <= 0 ->
  LineGenerator_send s turn elapsed
  = ({| startTurn := previousTurn s;
        previousTurn := turn;
        constraints := mkConstraints (mkQPointF 0 0) (mkQPointF 0 0) |},
     Some (mkQLineF (startTurn s) turn, true)).
Proof.
  intros Ht Hl Hr. apply send_forced; [|assumption].
  apply isViolatedBy_false. split; assumption.
Qed.

Lemma slow_satisfying_turn_forces_line_witness :
  let s := {| startTurn := mkQPointF 0 0;
              previousTurn := mkQPointF 5 1;
              constraints := mkConstraints (mkQPointF 6 0) (mkQPointF 4 2) |} in
  LineGenerator_send s (mkQPointF 6 2) 101
  = ({| startTurn := mkQPointF 5 1;
        previousTurn := mkQPointF 6 2;
        constraints := mkConstraints (mkQPointF 0 0) (mkQPointF 0 0) |},
     Some (mkQLineF (mkQPointF 0 0) (mkQPointF 6 2), true)).
Proof.
  apply (slow_satisfying_turn_forces_line
           {| startTurn := mkQPointF 0 0;
              previousTurn := mkQPointF 5 1;
              constraints := mkConstraints (mkQPointF 6 0) (mkQPointF 4 2) |}
           (mkQPointF 6 2) 101).
  - reflexivity.
  - vm_compute. intro H. discriminate H.
  - vm_compute. intro H. discriminate H.
Defined.

(** C9.  The constraints are the zero pair at construction and after every
    reset (every push that sends a line leaves them at the zero pair); with
    both bounds zero both cross products are 0 and [isViolatedBy] is false
    for every vector; hence a push on zero constraints never sends a line
    by violation: it sends nothing, or the forced line. *)
Theorem zero_constraints_are_never_violated :
  Constraints_init = mkConstraints (mkQPointF 0 0) (mkQPointF 0 0)
  /\ (forall startPosition : QPointF,
        constraints (LineGenerator startPosition) = Constraints_init)
  /\ (forall (s : LineState) (turn : QPointF) (elapsed : Z) (sent : QLineF * bool),
        snd (LineGenerator_send s turn elapsed) = Some sent ->
        constraints (fst (LineGenerator_send s turn elapsed)) = Constraints_init)
  /\ (forall v : QPointF,
        crossProduct (constraintLeft Constraints_init) v == 0
        /\ crossProduct (constraintRight Constraints_init) v == 0
        /\ isViolatedBy Constraints_init v = false)
  /\ (forall (s : LineState) (turn : QPointF) (elapsed : Z),
        constraints s = Constraints_init ->
        snd (LineGenerator_send s turn elapsed) = None
        \/ snd (LineGenerator_send s turn elapsed)
           = Some (mkQLineF (startTurn s) turn, true)).
Proof.
  split; [reflexivity|]. split; [reflexivity|]. split; [|split].
  - intros s turn elapsed sent H.
    destruct (isViolatedBy (constraints s) (psub turn (startTurn s))) eqn:Hv.
    + rewrite (send_violated s turn elapsed Hv). reflexivity.
    + destruct (Z_gt_le_dec elapsed MAX_POINTER_ELAPSED_FOR_SMOOTH) as [Ht|Ht].
      * rewrite (send_forced s turn elapsed Hv Ht). reflexivity.
      * rewrite (send_waiting s turn elapsed Hv Ht) in H. discriminate H.
  - intro v. split; [apply crossProduct_zero_l|].
    split; [apply crossProduct_zero_l | apply isViolatedBy_init].
  - intros s turn elapsed Hc.
    assert (Hv : isViolatedBy (constraints s) (psub turn (startTurn s)) = false)
      by (rewrite Hc; apply isViolatedBy_init).
    destruct (Z_gt_le_dec elapsed MAX_POINTER_ELAPSED_FOR_SMOOTH) as [Ht|Ht].
    + right. rewrite (send_forced s turn elapsed Hv Ht). reflexivity.
    + left. rewrite (send_waiting s turn elapsed Hv Ht). reflexivity.
Qed.

(** ** Tightening the constraints *)

Lemma sign_cases (x : Q) :
  (sign x = 1%Z /\ Qgtb x 0 = true /\ Qltb x 0 = false
   /\ Qgeb x 0 = true /\ Qleb x 0 = false)
  \/ (sign x = 0%Z /\ Qgtb x 0 = false /\ Qltb x 0 = false
      /\ Qgeb x 0 = true /\ Qleb x 0 = true)
  \/ (sign x = (-1)%Z /\ Qgtb x 0 = false /\ Qltb x 0 = true
      /\ Qgeb x 0 = false /\ Qleb x 0 = true).
Proof.
  unfold sign, Qgtb, Qltb, Qgeb, Qleb.
  destruct (Qle_bool x 0) eqn:A, (Qle_bool 0 x) eqn:B; cbn [negb].
  - right; left. repeat split.
  - right; right. repeat split.
  - left. repeat split.
  - exfalso.
    assert (Ha : ~ x <= 0) by (rewrite <- Qle_bool_iff; congruence).
    assert (Hb : ~ 0 <= x) by (rewrite <- Qle_bool_iff; congruence).
    lra.
Qed.








Lemma zero_constraints_are_never_violated_witness :
  let s := {| startTurn := mkQPointF 0 0;
              previousTurn := mkQPointF 5 1;
              constraints := mkConstraints (mkQPointF 6 0) (mkQPointF 4 2) |} in
  let s1 := fst (LineGenerator_send s (mkQPointF 1 5) 10) in
  constraints s1 = Constraints_init
  /\ (snd (LineGenerator_send s1 (mkQPointF 9 0) 10) = None
      \/ snd (LineGenerator_send s1 (mkQPointF 9 0) 10)
         = Some (mkQLineF (startTurn s1) (mkQPointF 9 0), true)).
Proof.
  cbv zeta.
  destruct zero_constraints_are_never_violated as (_ & _ & Hreset & _ & Hnext).
  assert (E : constraints
                (fst (LineGenerator_send
                        {| startTurn := mkQPointF 0 0;
                           previousTurn := mkQPointF 5 1;
                           constraints := mkConstraints (mkQPointF 6 0) (mkQPointF 4 2) |}
                        (mkQPointF 1 5) 10))
              = Constraints_init).
  { apply (Hreset _ _ _ (mkQLineF (mkQPointF 0 0) (mkQPointF 5 1), false)).
    vm_compute. reflexivity. }
  split; [exact E|]. apply Hnext. exact E.
Defined.

(** ** Closing the turn generator *)

Lemma pneqb_false (a b : QPointF) : pneqb a b = false <-> fuzzyEqual a b.
Proof.
  unfold pneqb, fuzzyEqual, qFuzzyIsNull.
  rewrite orb_false_iff, !negb_false_iff, !Qleb_true. reflexivity.
Qed.

Lemma pneqb_true (a b : QPointF) : pneqb a b = true <-> ~ fuzzyEqual a b.
Proof.
  rewrite <- pneqb_false. destruct (pneqb a b); split; intro H;
    solve [reflexivity | discriminate H | intro K; discriminate K
           | exfalso; apply H; reflexivity].
Qed.

Lemma fuzzyEqual_refl (a : QPointF) : fuzzyEqual a a.
Proof.
  assert (E : forall x : Q, Qabs (x - x) <= 1 # 1000000000000).
  { intro x. assert (E0 : x - x == 0) by ring. rewrite E0. discriminate. }
  split; apply E.
Qed.

Lemma fuzzyEqual_sym (a b : QPointF) : fuzzyEqual a b -> fuzzyEqual b a.
Proof.
  intros [Hx Hy]. split.
  - rewrite (Qabs_Qminus (px b) (px a)). exact Hx.
  - rewrite (Qabs_Qminus (py b) (py a)). exact Hy.
Qed.

Lemma Peq_fuzzyEqual (a b : QPointF) : Peq a b -> fuzzyEqual a b.
Proof.
  intros [Ex Ey].
  assert (E : forall x y : Q, x == y -> Qabs (x - y) <= 1 # 1000000000000).
  { intros x y H. assert (E0 : x - y == 0) by lra. rewrite E0. discriminate. }
  split; apply E; assumption.
Qed.

Lemma detectTurn_None (a b : QPointF) :
  detectTurn a b = None <-> (px a == px b \/ py a == py b).
Proof.
  unfold detectTurn.
  destruct (Qneqb (px a) (px b)) eqn:Ex, (Qneqb (py a) (py b)) eqn:Ey; cbn [andb].
  - apply Qneqb_true in Ex. apply Qneqb_true in Ey.
    split; [discriminate | intros [H|H]; contradiction].
  - apply Qneqb_false in Ey. split; [now right | reflexivity].
  - apply Qneqb_false in Ex. split; [now left | reflexivity].
  - apply Qneqb_false in Ex. split; [now left | reflexivity].
Qed.

Lemma detectTurn_Some (a b t : QPointF) : detectTurn a b = Some t -> t = b.
Proof.
  unfold detectTurn. destruct (_ && _); [|discriminate].
  intro H. now inversion H.
Qed.

Lemma close_after_position (prev pos : QPointF) :
  (TurnGenerator_close (mkTurnState (Some pos) prev) = Some (Some pos, 0%Z)
   <-> ~ fuzzyEqual prev pos)
  /\ (TurnGenerator_close (mkTurnState (Some pos) prev) = None
      <-> fuzzyEqual prev pos).
Proof.
  unfold TurnGenerator_close; cbn [position previousPosition].
  destruct (pneqb prev pos) eqn:E.
  - apply pneqb_true in E. split; split; try reflexivity; try discriminate.
    + intros _. exact E.
    + intro H. contradiction.
  - apply pneqb_false in E. split; split; try reflexivity; try discriminate.
    + intro H. contradiction.
    + intros _. exact E.
Qed.

(** C8, the claim as stated fails.  From the start (0,0) the pointer goes
    to (0,5) and back to (0,0): no turn is ever sent, so the last position
    sent, (0,0), was not emitted as a turn (it is on an axis with its
    predecessor), and yet closing the turn generator sends nothing. *)
Lemma close_is_silent_when_pointer_is_back :
  let run := TurnGenerator_run (TurnGenerator (mkQPointF 0 0))
               [(mkQPointF 0 5, 10%Z); (mkQPointF 0 0, 7%Z)] in
  snd run = []
  /\ snd (TurnGenerator_send
            (fst (TurnGenerator_send (TurnGenerator (mkQPointF 0 0))
                    (mkQPointF 0 5) 10))
            (mkQPointF 0 0) 7) = None
  /\ position (fst run) = Some (mkQPointF 0 0)
  /\ TurnGenerator_close (fst run) = None.
Proof.
  cbv zeta. repeat split.
Qed.

(** C8, amended.  When the turn generator is closed after a position was
    sent, it sends at most one final turn, and it sends one, the last
    position with elapsed time 0, if and only if that position differs from
    [previousPosition] (the position of the last turn sent or, when none
    was sent, the start position) for the comparison of [QPointF], that
    is, in some coordinate by more than 1e-12.  So when the last position
    was sent as a turn, close sends nothing; when it was not (it is on an
    axis with [previousPosition]), close sends it unless the comparison
    takes it for equal to [previousPosition]. *)
Theorem close_sends_last_position_unless_at_previous
    (s : TurnState) (newPosition : QPointF) (elapsed : Z) :
  let s1 := fst (TurnGenerator_send s newPosition elapsed) in
  let sent := snd (TurnGenerator_send s newPosition elapsed) in
  (TurnGenerator_close s1 = Some (Some newPosition, 0%Z)
   \/ TurnGenerator_close s1 = None)
  /\ (TurnGenerator_close s1 = Some (Some newPosition, 0%Z)
      <-> ~ fuzzyEqual (previousPosition s1) newPosition)
  /\ (sent = None
      <-> px (previousPosition s) == px newPosition
          \/ py (previousPosition s) == py newPosition)
  /\ (sent <> None ->
      sent = Some (newPosition, elapsed) /\ TurnGenerator_close s1 = None)
  /\ (sent = None ->
      (TurnGenerator_close s1 = Some (Some newPosition, 0%Z)
       <-> ~ fuzzyEqual (previousPosition s) newPosition)
      /\ (TurnGenerator_close s1 = None
          <-> fuzzyEqual (previousPosition s) newPosition)).
Proof.
  cbv zeta. unfold TurnGenerator_send.
  pose proof (detectTurn_None (previousPosition s) newPosition) as HN.
  destruct (detectTurn (previousPosition s) newPosition) as [turn|] eqn:E;
    cbn [fst snd previousPosition].
  - apply detectTurn_Some in E. subst turn.
    destruct (close_after_position newPosition newPosition) as [HS HC].
    assert (Hclose : TurnGenerator_close (mkTurnState (Some newPosition) newPosition) = None)
      by (apply HC, fuzzyEqual_refl).
    split; [right; exact Hclose|]. split; [exact HS|].
    split; [split; [discriminate | intro H; apply HN in H; discriminate H]|].
    split; [intros _; split; [reflexivity | exact Hclose]|].
    intro H. discriminate H.
  - destruct (close_after_position (previousPosition s) newPosition) as [HS HC].
    split.
    + destruct (pneqb (previousPosition s) newPosition) eqn:Hp.
      * left. apply HS. now apply pneqb_true.
      * right. apply HC. now apply pneqb_false.
    + split; [exact HS|]. split; [split; [intros _; now apply HN | reflexivity]|].
      split; [intro H; now contradiction H|].
      intros _. split; assumption.
Qed.

Lemma close_sends_last_position_unless_at_previous_witness :
  let s := TurnGenerator (mkQPointF 0 0) in
  TurnGenerator_close (fst (TurnGenerator_send s (mkQPointF 0 5) 10))
  = Some (Some (mkQPointF 0 5), 0%Z)
  /\ TurnGenerator_close
       (fst (TurnGenerator_send s (mkQPointF (1 # 10000000000000) 0) 10))
     = None
  /\ TurnGenerator_close (fst (TurnGenerator_send s (mkQPointF 3 3) 10)) = None.
Proof.
  cbv zeta. split; [|split].
  - destruct (close_sends_last_position_unless_at_previous
                (TurnGenerator (mkQPointF 0 0)) (mkQPointF 0 5) 10)
      as (_ & _ & _ & _ & H).
    apply H.
    + reflexivity.
    + apply pneqb_true. vm_compute. reflexivity.
  - destruct (close_sends_last_position_unless_at_previous
                (TurnGenerator (mkQPointF 0 0))
                (mkQPointF (1 # 10000000000000) 0) 10)
      as (_ & _ & _ & _ & H).
    apply H.
    + reflexivity.
    + apply pneqb_false. vm_compute. reflexivity.
  - destruct (close_sends_last_position_unless_at_previous
                (TurnGenerator (mkQPointF 0 0)) (mkQPointF 3 3) 10)
      as (_ & _ & _ & H & _).
    apply H. vm_compute. intro H3. discriminate H3.
Defined.

(** ** Continuity of the drawn path *)

Lemma last_cons_default (A : Type) (b : A) (l : list A) (d d' : A) :
  last (b :: l) d = last (b :: l) d'.
Proof.
  revert b. induction l as [|c l IH]; intro b; [reflexivity|].
  change (last (c :: l) d = last (c :: l) d'). apply IH.
Qed.

Lemma last_append (A : Type) (l l' : list A) (d : A) :
  last (l ++ l') d = last l' (last l d).
Proof.
  induction l as [|a l IH]; [reflexivity|].
  destruct l as [|b l].
  - destruct l' as [|c l']; [reflexivity|].
    change (last (c :: l') d = last (c :: l') a). apply last_cons_default.
  - exact IH.
Qed.

Lemma fold_addItem (curves : list GraphicElement) (p : AddingGraphicsPathItem) :
  fold_left addItem curves p = mkPath (startingPoint p) (elements p ++ curves).
Proof.
  revert p. induction curves as [|c curves IH]; intro p.
  - cbn. rewrite app_nil_r. destruct p; reflexivity.
  - cbn [fold_left]. rewrite IH. unfold addItem; cbn [startingPoint elements].
    rewrite <- app_assoc. reflexivity.
Qed.

Lemma currentPosition_fold_addItem
    (curves : list GraphicElement) (p : AddingGraphicsPathItem) :
  currentPosition (fold_left addItem curves p)
  = last (map endpoint curves) (currentPosition p).
Proof.
  rewrite fold_addItem. unfold currentPosition; cbn [startingPoint elements].
  rewrite map_app. apply last_append.
Qed.

Lemma connected_segmentsFrom (start : QPointF) (items : list GraphicElement) :
  connected start (segmentsFrom start items).
Proof.
  revert start. induction items as [|item items IH]; intro start; cbn.
  - exact I.
  - split; [reflexivity | apply IH].
Qed.

Section Continuity.

Variable alphamax : Q.

Lemma midToMid_ends_at_pathEndPoint (line1 line2 : QLineF) (d : QPointF) :
  fst (curvesFromLineMidToMid alphamax line1 line2) <> []
  /\ last (map endpoint (fst (curvesFromLineMidToMid alphamax line1 line2))) d
     = snd (curvesFromLineMidToMid alphamax line1 line2).
Proof.
  unfold curvesFromLineMidToMid. cbv zeta.
  destruct (Qgtb _ alphamax); cbn; split; solve [discriminate | reflexivity].
Qed.

Lemma midToEnd_ends_at_pathEndPoint (line1 line2 : QLineF) (d : QPointF) :
  fst (curvesFromLineMidToEnd alphamax line1 line2) <> []
  /\ last (map endpoint (fst (curvesFromLineMidToEnd alphamax line1 line2))) d
     = snd (curvesFromLineMidToEnd alphamax line1 line2).
Proof.
  unfold curvesFromLineMidToEnd.
  destruct (curvesFromLineMidToMid alphamax line1 line2) as [curves e].
  cbn [fst snd]. split.
  - destruct curves; discriminate.
  - rewrite map_app, last_append. reflexivity.
Qed.

Lemma fit_ends_at_pathEndPoint
    (previousLine line : QLineF) (isLineForced : bool) (d : QPointF) :
  fst (fst (CurveGenerator_fit alphamax previousLine line isLineForced)) <> []
  /\ last (map endpoint
             (fst (fst (CurveGenerator_fit alphamax previousLine line isLineForced)))) d
     = snd (fst (CurveGenerator_fit alphamax previousLine line isLineForced)).
Proof.
  unfold CurveGenerator_fit. destruct isLineForced.
  - pose proof (midToEnd_ends_at_pathEndPoint previousLine line d) as H.
    destruct (curvesFromLineMidToEnd alphamax previousLine line). exact H.
  - pose proof (midToMid_ends_at_pathEndPoint previousLine line d) as H.
    destruct (curvesFromLineMidToMid alphamax previousLine line). exact H.
Qed.

Lemma send_keeps_ghost_at_path_end
    (s : CurveState) (line : QLineF) (isLineForced : bool) :
  let s1 := CurveGenerator_send alphamax s line isLineForced in
  ghostStart s1 = currentPosition (path s1)
  /\ startingPoint (path s1) = startingPoint (path s).
Proof.
  cbv zeta. unfold CurveGenerator_send.
  pose proof (fit_ends_at_pathEndPoint (previousLine s) line isLineForced
                (currentPosition (path s))) as [_ H].
  destruct (CurveGenerator_fit alphamax (previousLine s) line isLineForced)
    as [[curves e] l].
  cbn [fst snd] in H. cbn [ghostStart path]. split.
  - rewrite currentPosition_fold_addItem. symmetry. exact H.
  - rewrite fold_addItem. reflexivity.
Qed.

Lemma run_keeps_ghost_at_path_end (lines : list (QLineF * bool)) (s : CurveState) :
  ghostStart s = currentPosition (path s) ->
  let s1 := CurveGenerator_run alphamax s lines in
  ghostStart s1 = currentPosition (path s1)
  /\ startingPoint (path s1) = startingPoint (path s).
Proof.
  revert s. induction lines as [|[line forced] lines IH]; intros s H.
  - split; [exact H | reflexivity].
  - cbv zeta. unfold CurveGenerator_run. cbn [fold_left fst snd].
    fold (CurveGenerator_run alphamax
            (CurveGenerator_send alphamax s line forced) lines).
    destruct (send_keeps_ghost_at_path_end s line forced) as [Hg Hs].
    destruct (IH _ Hg) as [Hg1 Hs1].
    split; [exact Hg1 | now rewrite Hs1].
Qed.

Lemma sendLine_keeps_ghost_at_path_end
    (startPosition : QPointF) (c : CurveState) (sent : option (QLineF * bool)) :
  ghostAtPathEnd startPosition c ->
  ghostAtPathEnd startPosition (sendLine alphamax c sent).
Proof.
  intros [Hg Hs]. destruct sent as [[line forced]|]; cbn [sendLine].
  - destruct (send_keeps_ghost_at_path_end c line forced) as [Hg1 Hs1].
    split; [exact Hg1 | now rewrite Hs1].
  - split; assumption.
Qed.

Lemma pointerMoveEvent_keeps_ghost_at_path_end
    (startPosition : QPointF) (tool : FreehandTool) (event : QPointF * Z) :
  ghostAtPathEnd startPosition (curveGenerator tool) ->
  ghostAtPathEnd startPosition
    (curveGenerator (pointerMoveEvent alphamax tool event)).
Proof.
  intro H. unfold pointerMoveEvent. destruct event as [newPosition elapsed].
  destruct (TurnGenerator_send (turnGenerator tool) newPosition elapsed)
    as [turns [[turn e]|]].
  - destruct (LineGenerator_send (lineGenerator tool) turn e) as [lines sent].
    cbn [curveGenerator]. now apply sendLine_keeps_ghost_at_path_end.
  - exact H.
Qed.

Lemma moves_keep_ghost_at_path_end
    (startPosition : QPointF) (events : list (QPointF * Z)) (tool : FreehandTool) :
  ghostAtPathEnd startPosition (curveGenerator tool) ->
  ghostAtPathEnd startPosition
    (curveGenerator (fold_left (pointerMoveEvent alphamax) events tool)).
Proof.
  revert tool. induction events as [|event events IH]; intros tool H.
  - exact H.
  - cbn [fold_left]. apply IH.
    now apply pointerMoveEvent_keeps_ghost_at_path_end.
Qed.

Lemma closeFilterPipe_keeps_ghost_at_path_end
    (startPosition : QPointF) (tool : FreehandTool) :
  ghostAtPathEnd startPosition (curveGenerator tool) ->
  ghostAtPathEnd startPosition (curveGenerator (closeFilterPipe alphamax tool)).
Proof.
  intro H. unfold closeFilterPipe.
  destruct (TurnGenerator_close (turnGenerator tool)) as [[[turn|] e]|].
  - destruct (LineGenerator_send (lineGenerator tool) turn e) as [lines sent].
    cbn [curveGenerator].
    now repeat apply sendLine_keeps_ghost_at_path_end.
  - cbn [curveGenerator]. now apply sendLine_keeps_ghost_at_path_end.
  - cbn [curveGenerator]. now apply sendLine_keeps_ghost_at_path_end.
Qed.

Lemma stroke_is_connected
    (startPosition : QPointF) (events : list (QPointF * Z))
    (releasePosition : QPointF) :
  let drawn := path (curveGenerator
                       (stroke alphamax startPosition events releasePosition)) in
  startingPoint drawn = startPosition
  /\ connected startPosition (segments drawn)
  /\ currentPosition drawn = releasePosition.
Proof.
  cbv zeta. unfold stroke, pointerReleaseEvent. cbv zeta.
  cbn [curveGenerator path].
  set (tool := fold_left (pointerMoveEvent alphamax) events
                 (pointerPressEvent startPosition)).
  assert (H : ghostAtPathEnd startPosition
                (curveGenerator (closeFilterPipe alphamax tool))).
  { apply closeFilterPipe_keeps_ghost_at_path_end.
    apply moves_keep_ghost_at_path_end. split; reflexivity. }
  destruct H as [_ Hs].
  assert (Hstart : startingPoint
                     (addItem (path (curveGenerator (closeFilterPipe alphamax tool)))
                        (createLinePathElement releasePosition))
                   = startPosition) by exact Hs.
  split; [exact Hstart|]. split.
  - unfold segments. rewrite Hstart. apply connected_segmentsFrom.
  - unfold currentPosition, addItem; cbn [elements startingPoint].
    rewrite map_app, last_append. reflexivity.
Qed.

End Continuity.

(** C7.  For every sequence of lines sent to the curve generator, each
    call of the curve-fitting stage returns a path end point that is the
    end point of the last element it returns (and it returns at least one
    element), so after every call the end of the drawn path is the point
    returned; the elements of the path, each drawn from the end point of
    the one before it and the first from the start position, form a path
    without gaps.  The same holds for the path drawn by a whole stroke
    (press, any moves, release), which moreover ends at the position of
    the release. *)
Theorem curve_fitter_path_is_continuous
    (alphamax : Q) (startPosition : QPointF) (lines : list (QLineF * bool)) :
  (forall (previousLine line : QLineF) (isLineForced : bool),
     let curves :=
       fst (fst (CurveGenerator_fit alphamax previousLine line isLineForced)) in
     let pathEndPoint :=
       snd (fst (CurveGenerator_fit alphamax previousLine line isLineForced)) in
     curves <> []
     /\ forall d : QPointF, last (map endpoint curves) d = pathEndPoint)
  /\ (let s := CurveGenerator_run alphamax (CurveGenerator startPosition) lines in
      ghostStart s = currentPosition (path s)
      /\ startingPoint (path s) = startPosition
      /\ connected startPosition (segments (path s)))
  /\ (forall (events : list (QPointF * Z)) (releasePosition : QPointF),
        let moved := curveGenerator
                       (fold_left (pointerMoveEvent alphamax) events
                          (pointerPressEvent startPosition)) in
        let drawn := path (curveGenerator
                             (stroke alphamax startPosition events releasePosition)) in
        ghostStart moved = currentPosition (path moved)
        /\ connected startPosition (segments (path moved))
        /\ connected startPosition (segments drawn)
        /\ currentPosition drawn = releasePosition).
Proof.
  split; [|split].
  - intros previousLine line isLineForced. cbv zeta. split.
    + apply (fit_ends_at_pathEndPoint alphamax previousLine line isLineForced
               startPosition).
    + intro d. apply fit_ends_at_pathEndPoint.
  - cbv zeta.
    destruct (run_keeps_ghost_at_path_end alphamax lines
                (CurveGenerator startPosition) eq_refl) as [Hg Hs].
    cbn [CurveGenerator path startingPoint] in Hs.
    split; [exact Hg|]. split; [exact Hs|].
    unfold segments. rewrite Hs. apply connected_segmentsFrom.
  - intros events releasePosition. cbv zeta.
    destruct (moves_keep_ghost_at_path_end alphamax startPosition events
                (pointerPressEvent startPosition)) as [Hg Hs];
      [split; reflexivity|].
    destruct (stroke_is_connected alphamax startPosition events releasePosition)
      as (_ & Hc & He).
    split; [exact Hg|]. split; [|split; assumption].
    unfold segments. rewrite Hs. apply connected_segmentsFrom.
Qed.

(** ** More of the geometry *)

Lemma Qabs_cases (x : Q) : (0 <= x /\ Qabs x == x) \/ (x <= 0 /\ Qabs x == - x).
Proof.
  destruct (Qlt_le_dec x 0) as [H|H].
  - right. split; [lra | apply Qabs_neg; lra].
  - left. split; [exact H | now apply Qabs_pos].
Qed.

Lemma Qabs_le_iff (x y : Q) : Qabs x <= y <-> - y <= x /\ x <= y.
Proof. apply Qabs_Qle_condition. Qed.

Lemma area_shifted (p0 p1 p2 q : QPointF) :
  areaOfParallelogram p0 q p2
  == areaOfParallelogram p0 p1 p2
     + (px q - px p1) * (py p2 - py p0) - (px p2 - px p0) * (py q - py p1).
Proof. unfold areaOfParallelogram. ring. Qed.

Lemma unit_square_bound (dx dy ex ey : Q) :
  Qabs ex <= 1 -> Qabs ey <= 1 ->
  Qabs (dx * ey - ex * dy) <= Qabs dx + Qabs dy.
Proof.
  intros Hx Hy. apply Qabs_le_iff in Hx. apply Qabs_le_iff in Hy.
  destruct Hx as [Hx1 Hx2], Hy as [Hy1 Hy2].
  apply Qabs_le_iff.
  destruct (Qabs_cases dx) as [[Sx Ex]|[Sx Ex]], (Qabs_cases dy) as [[Sy Ey]|[Sy Ey]];
    rewrite Ex, Ey; split; nra.
Qed.

Lemma square_to_line (p0 p1 p2 q : QPointF) :
  Qabs (px q - px p1) <= 1 -> Qabs (py q - py p1) <= 1 ->
  areaOfParallelogram p0 q p2 == 0 ->
  Qabs (areaOfParallelogram p0 p1 p2) <= ddenom p0 p2.
Proof.
  intros Hx Hy H0. rewrite (area_shifted p0 p1 p2 q) in H0.
  rewrite ddenom_abs.
  assert (E : areaOfParallelogram p0 p1 p2
              == (px p2 - px p0) * (py q - py p1) - (px q - px p1) * (py p2 - py p0))
    by lra.
  rewrite E. now apply unit_square_bound.
Qed.

Lemma sign_abs_le_1 (x : Q) : Qabs (inject_Z (sign x)) <= 1.
Proof.
  destruct (sign_cases x) as [(S & _)|[(S & _)|(S & _)]]; rewrite S; discriminate.
Qed.

Lemma line_to_square (p0 p1 p2 : QPointF) :
  Qabs (areaOfParallelogram p0 p1 p2) <= ddenom p0 p2 ->
  exists q : QPointF,
    Qabs (px q - px p1) <= 1 /\ Qabs (py q - py p1) <= 1
    /\ areaOfParallelogram p0 q p2 == 0.
Proof.
  intro H.
  set (f := areaOfParallelogram p0 p1 p2) in *.
  set (D := ddenom p0 p2) in *.
  assert (HD : D == Qabs (px p2 - px p0) + Qabs (py p2 - py p0)) by apply ddenom_abs.
  assert (HD0 : 0 <= D) by apply ddenom_nonneg.
  apply Qabs_le_iff in H. destruct H as [H1 H2].
  destruct (Qeq_dec D 0) as [Z|NZ].
  - exists p1. assert (E : forall a : Q, Qabs (a - a) <= 1).
    { intro a. assert (E0 : a - a == 0) by lra. rewrite E0. discriminate. }
    split; [apply E|]. split; [apply E|]. fold f. lra.
  - set (k := f / D).
    assert (Hk : k * D == f) by (unfold k; field; exact NZ).
    assert (Hk1 : - (1) <= k /\ k <= 1) by (split; nra).
    exists (mkQPointF (px p1 - k * inject_Z (sign (py p2 - py p0)))
                      (py p1 + k * inject_Z (sign (px p2 - px p0)))).
    cbn [px py].
    assert (Hb : forall (a s : Q), Qabs s <= 1 -> Qabs (a - k * s - a) <= 1
                                                /\ Qabs (a + k * s - a) <= 1).
    { intros a s Hs. apply Qabs_le_iff in Hs.
      split; apply Qabs_le_iff; split; nra. }
    split; [apply Hb, sign_abs_le_1|]. split; [apply Hb, sign_abs_le_1|].
    rewrite (area_shifted p0 p1 p2); cbn [px py]. fold f.
    pose proof (sign_mult_abs (px p2 - px p0)) as Ax.
    pose proof (sign_mult_abs (py p2 - py p0)) as Ay.
    set (sx := inject_Z (sign (px p2 - px p0))) in *.
    set (sy := inject_Z (sign (py p2 - py p0))) in *.
    set (dx := px p2 - px p0) in *. set (dy := py p2 - py p0) in *.
    assert (E : f + (px p1 - k * sy - px p1) * dy - dx * (py p1 + k * sx - py p1)
                == f - k * (sx * dx + sy * dy)) by ring.
    rewrite E, Ax, Ay, <- HD. lra.
Qed.

(** X1.  The property the source states for [ddenom] and
    [areaOfParallelogram]: the square of radius 1 centered at [p1] meets
    the line through [p0] and [p2] (some point [q] of the square has
    [areaOfParallelogram p0 q p2 = 0]) if and only if
    [|areaOfParallelogram p0 p1 p2| <= ddenom p0 p2]. *)
Theorem unit_square_meets_line_iff (p0 p1 p2 : QPointF) :
  (exists q : QPointF,
     Qabs (px q - px p1) <= 1 /\ Qabs (py q - py p1) <= 1
     /\ areaOfParallelogram p0 q p2 == 0)
  <-> Qabs (areaOfParallelogram p0 p1 p2) <= ddenom p0 p2.
Proof.
  split.
  - intros (q & Hx & Hy & H0). now apply (square_to_line p0 p1 p2 q).
  - apply line_to_square.
Qed.

(** X2.  [areaOfParallelogram p0 p1 p2] is the cross product of the
    vectors [p1 - p0] and [p2 - p0]; it changes sign when [p1] and [p2]
    are exchanged, does not change when the three points are moved by the
    same vector, and is zero when [p1] is on the line from [p0] to [p2]
    (any [interval] of them). *)
Theorem areaOfParallelogram_is_cross_product (p0 p1 p2 shift : QPointF) (t : Q) :
  areaOfParallelogram p0 p1 p2 == crossProduct (psub p1 p0) (psub p2 p0)
  /\ areaOfParallelogram p0 p2 p1 == - areaOfParallelogram p0 p1 p2
  /\ areaOfParallelogram (psub p0 shift) (psub p1 shift) (psub p2 shift)
     == areaOfParallelogram p0 p1 p2
  /\ areaOfParallelogram p0 (interval t p0 p2) p2 == 0.
Proof.
  unfold areaOfParallelogram, crossProduct, psub, interval; cbn [px py].
  repeat split; ring.
Qed.

Lemma Qabs_div_pos (a d : Q) : 0 < d -> Qabs (a / d) * d == Qabs a.
Proof.
  intro Hd. unfold Qdiv. rewrite Qabs_Qmult, Qabs_Qinv.
  rewrite (Qabs_pos d) by lra. field. lra.
Qed.

Lemma alphaOf_exceeds_default (point1 point2 point3 : QPointF) :
  ALPHAMAX < alphaOf point1 point2 point3
  <-> Peq point1 point3
      \/ 10 * ddenom point1 point3
         < Qabs (areaOfParallelogram point1 point2 point3).
Proof.
  pose proof (ddenom_nonneg point1 point3) as HD0.
  pose proof (ddenom_zero_iff point1 point3) as HDZ.
  unfold alphaOf. cbv zeta.
  destruct (Qneqb (ddenom point1 point3) 0) eqn:Hd.
  - apply Qneqb_true in Hd.
    assert (HD : 0 < ddenom point1 point3) by lra.
    pose proof (Qabs_div_pos (areaOfParallelogram point1 point2 point3) _ HD) as Hdd.
    set (dd := Qabs (areaOfParallelogram point1 point2 point3 / ddenom point1 point3)) in *.
    set (A := Qabs (areaOfParallelogram point1 point2 point3)) in *.
    set (D := ddenom point1 point3) in *.
    destruct (Qgtb dd 1) eqn:H1.
    + apply Qgtb_true in H1.
      assert (Hpos : 0 < / dd) by (apply Qinv_lt_0_compat; lra).
      assert (Hinv : dd * / dd == 1) by (apply Qmult_inv_r; lra).
      unfold Qdiv.
      assert (E : / (75 # 100) == 4 # 3) by reflexivity. rewrite E.
      unfold ALPHAMAX. split.
      * intro H. right.
        assert (Hi : / dd < 1 # 10) by lra.
        assert (Hdd10 : 10 < dd) by nra. nra.
      * intros [P|H]; [exfalso; apply Hd, HDZ, P|].
        assert (Hdd10 : 10 < dd) by nra.
        assert (Hi : / dd < 1 # 10) by nra. lra.
    + apply Qgtb_false in H1. unfold ALPHAMAX. split.
      * intro H. exfalso. lra.
      * intros [P|H]; [exfalso; apply Hd, HDZ, P|]. exfalso. nra.
  - apply Qneqb_false in Hd. split.
    + intros _. left. now apply HDZ.
    + intros _. reflexivity.
Qed.

(** X3.  With the default [ALPHAMAX] of 1.2 the mid-to-mid fit returns a
    cusp exactly when the outer points coincide or
    [|areaOfParallelogram(point1, point2, point3)|] exceeds ten times
    [ddenom(point1, point3)]; otherwise it returns a single spline. *)
Theorem default_cusp_iff_area_exceeds_ten_ddenom (line1 line2 : QLineF) :
  let point1 := p1 line1 in
  let point2 := p2 line1 in
  let point3 := p2 line2 in
  let sharp :=
    Peq point1 point3
    \/ 10 * ddenom point1 point3
       < Qabs (areaOfParallelogram point1 point2 point3) in
  (sharp <->
   curvesFromLineMidToMid ALPHAMAX line1 line2
   = createCusp point2 (interval (1 / 2) point3 point2))
  /\ (~ sharp <->
      exists controlPoint1 controlPoint2 : QPointF,
        curvesFromLineMidToMid ALPHAMAX line1 line2
        = createSplinePathElement controlPoint1 controlPoint2
            (interval (1 / 2) point3 point2)).
Proof.
  cbv zeta.
  pose proof (alphaOf_exceeds_default (p1 line1) (p2 line1) (p2 line2)) as Hiff.
  destruct (Qlt_le_dec ALPHAMAX (alphaOf (p1 line1) (p2 line1) (p2 line2)))
    as [Hgt|Hle].
  - pose proof (midToMid_cusp ALPHAMAX line1 line2 Hgt) as E.
    split; split.
    + intros _. exact E.
    + intros _. now apply Hiff.
    + intro H. exfalso. apply H. now apply Hiff.
    + intros (c1 & c2 & H). rewrite E in H. discriminate H.
  - pose proof (midToMid_spline ALPHAMAX line1 line2 Hle) as E. cbv zeta in E.
    assert (Hn : ~ (Peq (p1 line1) (p2 line2)
                    \/ 10 * ddenom (p1 line1) (p2 line2)
                       < Qabs (areaOfParallelogram (p1 line1) (p2 line1) (p2 line2)))).
    { intro H. apply Hiff in H. lra. }
    split; split.
    + intro H. contradiction.
    + intro H. rewrite E in H. discriminate H.
    + intros _. eexists. eexists. exact E.
    + intros _. exact Hn.
Qed.

(** X4.  [interval] interpolates: fraction 0 gives the first point,
    fraction 1 the second, reversing the points complements the fraction,
    and intervals compose: the point at fraction [s] between the points at
    fractions [t1] and [t2] is the point at fraction [t1 + s*(t2 - t1)]. *)
Theorem interval_interpolates (point1 point2 : QPointF) (t t1 t2 s : Q) :
  Peq (interval 0 point1 point2) point1
  /\ Peq (interval 1 point1 point2) point2
  /\ Peq (interval t point1 point2) (interval (1 - t) point2 point1)
  /\ Peq (interval s (interval t1 point1 point2) (interval t2 point1 point2))
         (interval (t1 + s * (t2 - t1)) point1 point2).
Proof.
  unfold Peq, interval; cbn [px py]. repeat split; ring.
Qed.

(** X5.  The methods of [FreehandPoint] return what the functions of the
    tool return (with the fraction as last argument), so they have their
    properties: [self.interval(other, 0)] is [self],
    [self.interval(other, 1)] is [other], [self.interval(other, t)] is
    [other.interval(self, 1 - t)], and the cross product of [other - self]
    with [self.cardinalDirectionLeft90(other)] is [|dx| + |dy|]. *)
Theorem FreehandPoint_methods_agree (self other : QPointF) (fraction : Q) :
  FreehandPoint.interval self other fraction = interval fraction self other
  /\ FreehandPoint.cardinalDirectionLeft90 self other
     = cardinalDirectionLeft90 self other
  /\ Peq (FreehandPoint.interval self other 0) self
  /\ Peq (FreehandPoint.interval self other 1) other
  /\ Peq (FreehandPoint.interval self other fraction)
         (FreehandPoint.interval other self (1 - fraction))
  /\ crossProduct (psub other self)
       (FreehandPoint.cardinalDirectionLeft90 self other)
     == Qabs (px other - px self) + Qabs (py other - py self).
Proof.
  split; [reflexivity|]. split; [reflexivity|].
  unfold Peq, FreehandPoint.interval, FreehandPoint.cardinalDirectionLeft90,
    crossProduct, psub; cbn [px py].
  split; [split; ring|]. split; [split; ring|]. split; [split; ring|].
  rewrite inject_Z_opp.
  rewrite <- (sign_mult_abs (px other - px self)),
          <- (sign_mult_abs (py other - py self)).
  ring.
Qed.

Lemma sign_values (x : Q) : sign x = 1%Z \/ sign x = 0%Z \/ sign x = (-1)%Z.
Proof.
  destruct (sign_cases x) as [(S & _)|[(S & _)|(S & _)]]; auto.
Qed.

Lemma sign_zero_iff (x : Q) : sign x = 0%Z <-> x == 0.
Proof.
  pose proof (sign_mult_abs x) as H. split.
  - intro S. rewrite S in H. apply Qabs_zero_iff. rewrite <- H.
    change (inject_Z 0) with 0. ring.
  - intro E. unfold sign.
    assert (H1 : Qgtb x 0 = false) by (apply Qgtb_false; lra).
    assert (H2 : Qltb x 0 = false) by (apply Qltb_false; lra).
    rewrite H1, H2. reflexivity.
Qed.

(** X6.  [cardinalDirectionLeft90 p0 p1] has components in {-1, 0, 1}; it
    is on the counterclockwise side of [p1 - p0] (their cross product is
    [|dx| + |dy|]); it is the null vector only when the points coincide;
    and it is at a right angle to [p1 - p0] exactly when [p1 - p0] is one
    of the eight cardinal directions ([dx = 0], [dy = 0] or [|dx| = |dy|]). *)
Theorem cardinalDirectionLeft90_is_left (p0 p1 : QPointF) :
  let r := cardinalDirectionLeft90 p0 p1 in
  let dx := px p1 - px p0 in
  let dy := py p1 - py p0 in
  (px r == 1 \/ px r == 0 \/ px r == - (1))
  /\ (py r == 1 \/ py r == 0 \/ py r == - (1))
  /\ crossProduct (psub p1 p0) r == Qabs dx + Qabs dy
  /\ (Peq r (mkQPointF 0 0) <-> Peq p0 p1)
  /\ (px r * dx + py r * dy == 0
      <-> dx == 0 \/ dy == 0 \/ Qabs dx == Qabs dy).
Proof.
  cbv zeta. unfold cardinalDirectionLeft90, crossProduct, psub, Peq; cbn [px py].
  set (dx := px p1 - px p0). set (dy := py p1 - py p0).
  pose proof (sign_mult_abs dx) as Ax. pose proof (sign_mult_abs dy) as Ay.
  rewrite inject_Z_opp.
  split; [|split; [|split; [|split]]].
  - destruct (sign_values dy) as [S|[S|S]]; rewrite S; [right; right|right; left|left];
      reflexivity.
  - destruct (sign_values dx) as [S|[S|S]]; rewrite S; [left|right; left|right; right];
      reflexivity.
  - rewrite <- Ax, <- Ay. ring.
  - split.
    + intros [Hy Hx].
      assert (Sy : sign dy = 0%Z).
      { destruct (sign_values dy) as [S|[S|S]]; rewrite S in Hy;
          [discriminate Hy | exact S | discriminate Hy]. }
      assert (Sx : sign dx = 0%Z).
      { destruct (sign_values dx) as [S|[S|S]]; rewrite S in Hx;
          [discriminate Hx | exact S | discriminate Hx]. }
      apply sign_zero_iff in Sx. apply sign_zero_iff in Sy.
      unfold dx in Sx. unfold dy in Sy. split; lra.
    + intros [Ex Ey].
      assert (Sx : sign dx = 0%Z) by (apply sign_zero_iff; unfold dx; lra).
      assert (Sy : sign dy = 0%Z) by (apply sign_zero_iff; unfold dy; lra).
      rewrite Sx, Sy. split; reflexivity.
  - destruct (Qabs_cases dx) as [[Hx Ex]|[Hx Ex]],
             (Qabs_cases dy) as [[Hy Ey]|[Hy Ey]];
      rewrite Ex, Ey in *;
      destruct (sign_cases dx) as [(Sx & Gx & _)|[(Sx & Gx & Lx & _)|(Sx & _ & Lx & _)]];
      destruct (sign_cases dy) as [(Sy & Gy & _)|[(Sy & Gy & Ly & _)|(Sy & _ & Ly & _)]];
      rewrite Sx, Sy in *;
      try (apply Qgtb_true in Gx); try (apply Qgtb_true in Gy);
      try (apply Qltb_true in Lx); try (apply Qltb_true in Ly);
      try (apply Qgtb_false in Gx); try (apply Qgtb_false in Gy);
      try (apply Qltb_false in Lx); try (apply Qltb_false in Ly);
      change (inject_Z 1) with 1 in *; change (inject_Z 0) with 0 in *;
      change (inject_Z (-1)) with (- (1)) in *;
      (split; [intro H | intros [H|[H|H]]]);
      try lra;
      try (left; lra); try (right; left; lra); try (right; right; lra).
Qed.

(** ** More of the curve fitter *)

Lemma square_nonneg (u : Q) : 0 <= u * u.
Proof. nra. Qed.

Lemma midToMid_spline_inv (alphamax : Q) (line1 line2 : QLineF)
    (c1 c2 e e1 : QPointF) :
  curvesFromLineMidToMid alphamax line1 line2 = ([SplinePathElement c1 c2 e], e1) ->
  exists a : Q,
    55 # 100 <= a <= 1
    /\ c1 = interval ((5 # 10) + (5 # 10) * a) (p1 line1) (p2 line1)
    /\ c2 = interval ((5 # 10) + (5 # 10) * a) (p2 line2) (p2 line1)
    /\ e = interval (1 / 2) (p2 line2) (p2 line1)
    /\ e1 = e.
Proof.
  intro H.
  destruct (Qlt_le_dec alphamax (alphaOf (p1 line1) (p2 line1) (p2 line2)))
    as [Hgt|Hle].
  - rewrite (midToMid_cusp alphamax line1 line2 Hgt) in H. discriminate H.
  - rewrite (midToMid_spline alphamax line1 line2 Hle) in H. cbv zeta in H.
    inversion H; subst.
    exists (clampAlpha (alphaOf (p1 line1) (p2 line1) (p2 line2))).
    split; [apply clampAlpha_range|]. repeat split.
Qed.

(** X7.  The joint between consecutive splines is smooth: when the fit
    of [line1, line2] and the fit of [line2, line3] both return a spline
    and [line2] starts where [line1] ends, the second control point of the
    first spline, the point where the two splines meet and the first
    control point of the second spline are on one line (the cross product
    of the two tangent vectors is 0), the meeting point between the two
    control points (their dot product is not positive). *)
Theorem consecutive_splines_join_smoothly
    (alphamax : Q) (line1 line2 line3 : QLineF)
    (c1 c2 e c1' c2' e' : QPointF) :
  p1 line2 = p2 line1 ->
  curvesFromLineMidToMid alphamax line1 line2 = ([SplinePathElement c1 c2 e], e) ->
  curvesFromLineMidToMid alphamax line2 line3 = ([SplinePathElement c1' c2' e'], e') ->
  crossProduct (psub c2 e) (psub c1' e) == 0
  /\ px (psub c2 e) * px (psub c1' e) + py (psub c2 e) * py (psub c1' e) <= 0.
Proof.
  intros Hjoint H1 H2.
  apply midToMid_spline_inv in H1. destruct H1 as (a & [Ha1 Ha2] & _ & Ec2 & Ee & _).
  apply midToMid_spline_inv in H2. destruct H2 as (b & [Hb1 Hb2] & Ec1 & _).
  rewrite Hjoint in Ec1. subst c2 e c1'.
  unfold crossProduct, psub, interval; cbn [px py].
  set (ax := px (p2 line1)). set (ay := py (p2 line1)).
  set (bx := px (p2 line2)). set (by_ := py (p2 line2)).
  split.
  - field.
  - assert (E : (bx + ((5 # 10) + (5 # 10) * a) * (ax - bx) - (bx + 1 / 2 * (ax - bx)))
                * (ax + ((5 # 10) + (5 # 10) * b) * (bx - ax) - (bx + 1 / 2 * (ax - bx)))
                + (by_ + ((5 # 10) + (5 # 10) * a) * (ay - by_) - (by_ + 1 / 2 * (ay - by_)))
                  * (ay + ((5 # 10) + (5 # 10) * b) * (by_ - ay) - (by_ + 1 / 2 * (ay - by_)))
                == - ((1 # 4) * (a * b)) * ((ax - bx) * (ax - bx) + (ay - by_) * (ay - by_)))
      by field.
    rewrite E.
    assert (Hab : 0 <= a * b) by nra.
    pose proof (square_nonneg (ax - bx)) as Hx.
    pose proof (square_nonneg (ay - by_)) as Hy.
    set (S := (ax - bx) * (ax - bx) + (ay - by_) * (ay - by_)).
    assert (Hsq : 0 <= S) by (unfold S; lra).
    clearbody S. nra.
Qed.

Lemma consecutive_splines_join_smoothly_witness :
  let line1 := mkQLineF (mkQPointF 0 0) (mkQPointF 4 0) in
  let line2 := mkQLineF (mkQPointF 4 0) (mkQPointF 8 2) in
  let line3 := mkQLineF (mkQPointF 8 2) (mkQPointF 12 6) in
  exists c2 e c1' : QPointF,
    crossProduct (psub c2 e) (psub c1' e) == 0
    /\ px (psub c2 e) * px (psub c1' e) + py (psub c2 e) * py (psub c1' e) <= 0.
Proof.
  cbv zeta.
  eexists. eexists. eexists.
  eapply (consecutive_splines_join_smoothly ALPHAMAX
            (mkQLineF (mkQPointF 0 0) (mkQPointF 4 0))
            (mkQLineF (mkQPointF 4 0) (mkQPointF 8 2))
            (mkQLineF (mkQPointF 8 2) (mkQPointF 12 6))).
  - reflexivity.
  - vm_compute. reflexivity.
  - vm_compute. reflexivity.
Defined.

Lemma area_null_line (P Q3 : QPointF) : areaOfParallelogram P P Q3 == 0.
Proof. unfold areaOfParallelogram. ring. Qed.

Lemma alphaOf_null_line (P Q3 : QPointF) :
  ~ Peq P Q3 -> alphaOf P P Q3 = 0.
Proof.
  intro H. unfold alphaOf. cbv zeta.
  assert (Hd : Qneqb (ddenom P Q3) 0 = true).
  { apply Qneqb_true. intro E. apply H. now apply ddenom_zero_iff. }
  rewrite Hd.
  assert (Hdd : Qgtb (Qabs (areaOfParallelogram P P Q3 / ddenom P Q3)) 1 = false).
  { apply Qgtb_false. rewrite area_null_line.
    assert (E : 0 / ddenom P Q3 == 0) by (unfold Qdiv; ring).
    rewrite E. discriminate. }
  rewrite Hdd. reflexivity.
Qed.

Lemma fit_from_null_line_spline (alphamax : Q) (P : QPointF) (line : QLineF) :
  ~ Peq P (p2 line) ->
  0 <= alphamax ->
  exists controlPoint1 controlPoint2 : QPointF,
    curvesFromLineMidToMid alphamax (nullLine P) line
    = ([SplinePathElement controlPoint1 controlPoint2
          (interval (1 / 2) (p2 line) P)],
       interval (1 / 2) (p2 line) P)
    /\ Peq controlPoint1 P
    /\ Peq controlPoint2 (interval (775 # 1000) (p2 line) P).
Proof.
  intros Hne Hmax.
  pose proof (alphaOf_null_line P (p2 line) Hne) as Ha.
  assert (Hle : alphaOf (p1 (nullLine P)) (p2 (nullLine P)) (p2 line) <= alphamax).
  { cbn [nullLine p1 p2]. rewrite Ha. exact Hmax. }
  pose proof (midToMid_spline alphamax (nullLine P) line Hle) as E.
  cbv zeta in E. cbn [nullLine p1 p2] in E. rewrite Ha in E.
  eexists. eexists. split; [exact E|].
  unfold Peq, interval; cbn [px py].
  assert (Ec : clampAlpha 0 == 55 # 100) by reflexivity.
  rewrite Ec. repeat split; ring.
Qed.

(** X8.  The fit from a null line (the state of the curve generator at
    the start of a stroke and after a forced line): when the new line ends
    away from the point [P] of the null line, alpha is 0 and, for a
    threshold that is not negative, the fit is one spline whose first
    control point is [P] itself, whose second control point is at fraction
    0.775 from the end of the line to [P], and which ends halfway. *)
Theorem fit_from_null_line_is_a_spline
    (alphamax : Q) (P : QPointF) (line : QLineF) :
  ~ Peq P (p2 line) ->
  0 <= alphamax ->
  alphaOf P P (p2 line) = 0
  /\ exists controlPoint1 controlPoint2 : QPointF,
       curvesFromLineMidToMid alphamax (nullLine P) line
       = ([SplinePathElement controlPoint1 controlPoint2
             (interval (1 / 2) (p2 line) P)],
          interval (1 / 2) (p2 line) P)
       /\ Peq controlPoint1 P
       /\ Peq controlPoint2 (interval (775 # 1000) (p2 line) P).
Proof.
  intros Hne Hmax. split.
  - now apply alphaOf_null_line.
  - now apply fit_from_null_line_spline.
Qed.

Lemma fit_from_null_line_is_a_spline_witness :
  exists controlPoint1 controlPoint2 : QPointF,
    curvesFromLineMidToMid ALPHAMAX (nullLine (mkQPointF 0 0))
      (mkQLineF (mkQPointF 0 0) (mkQPointF 3 3))
    = ([SplinePathElement controlPoint1 controlPoint2
          (interval (1 / 2) (mkQPointF 3 3) (mkQPointF 0 0))],
       interval (1 / 2) (mkQPointF 3 3) (mkQPointF 0 0))
    /\ Peq controlPoint1 (mkQPointF 0 0)
    /\ Peq controlPoint2 (interval (775 # 1000) (mkQPointF 3 3) (mkQPointF 0 0)).
Proof.
  apply (fit_from_null_line_is_a_spline ALPHAMAX (mkQPointF 0 0)
           (mkQLineF (mkQPointF 0 0) (mkQPointF 3 3))).
  - vm_compute. intros [H _]. discriminate H.
  - vm_compute. intro H. discriminate H.
Defined.

(** X9.  [curvesFromLineMidToEnd] returns two or three elements (three
    exactly when the mid-to-mid fit is a cusp): the elements of the
    mid-to-mid fit followed by a line element to the end of [line2], which
    is also the end of the path it returns. *)
Theorem midToEnd_returns_two_or_three (alphamax : Q) (line1 line2 : QLineF) :
  let curves := fst (curvesFromLineMidToEnd alphamax line1 line2) in
  let alpha := alphaOf (p1 line1) (p2 line1) (p2 line2) in
  curves = fst (curvesFromLineMidToMid alphamax line1 line2)
           ++ [LinePathElement (p2 line2)]
  /\ snd (curvesFromLineMidToEnd alphamax line1 line2) = p2 line2
  /\ (length curves = 2%nat \/ length curves = 3%nat)
  /\ (length curves = 3%nat <-> alphamax < alpha)
  /\ (length curves = 2%nat <-> alpha <= alphamax).
Proof.
  cbv zeta. unfold curvesFromLineMidToEnd.
  destruct (Qlt_le_dec alphamax (alphaOf (p1 line1) (p2 line1) (p2 line2)))
    as [Hgt|Hle].
  - rewrite (midToMid_cusp alphamax line1 line2 Hgt). cbn.
    split; [reflexivity|]. split; [reflexivity|]. split; [now right|].
    split; split; intro H; try reflexivity; try assumption;
      try discriminate H; exfalso; lra.
  - rewrite (midToMid_spline alphamax line1 line2 Hle). cbn.
    split; [reflexivity|]. split; [reflexivity|]. split; [now left|].
    split; split; intro H; try reflexivity; try assumption;
      try discriminate H; exfalso; lra.
Qed.

(** ** More of the turn generator *)

Lemma detectTurn_offAxis (a b t : QPointF) :
  detectTurn a b = Some t -> t = b /\ offAxis a b.
Proof.
  unfold detectTurn, offAxis.
  destruct (Qneqb (px a) (px b)) eqn:Ex, (Qneqb (py a) (py b)) eqn:Ey;
    cbn [andb]; intro H; try discriminate H.
  apply Qneqb_true in Ex. apply Qneqb_true in Ey.
  inversion H; subst. split; [reflexivity | split; assumption].
Qed.

Lemma TurnGenerator_run_cons (s : TurnState) (newPosition : QPointF) (elapsed : Z)
    (rest : list (QPointF * Z)) :
  TurnGenerator_run s ((newPosition, elapsed) :: rest)
  = (fst (TurnGenerator_run (fst (TurnGenerator_send s newPosition elapsed)) rest),
     sentList (snd (TurnGenerator_send s newPosition elapsed))
     ++ snd (TurnGenerator_run (fst (TurnGenerator_send s newPosition elapsed)) rest)).
Proof.
  cbn [TurnGenerator_run].
  destruct (TurnGenerator_send s newPosition elapsed) as [s1 out].
  cbn [fst snd].
  destruct (TurnGenerator_run s1 rest) as [s2 outs]. cbn [fst snd].
  destruct out; reflexivity.
Qed.

Lemma TurnGenerator_send_cases (s : TurnState) (newPosition : QPointF) (elapsed : Z) :
  (offAxis (previousPosition s) newPosition
   /\ TurnGenerator_send s newPosition elapsed
      = (mkTurnState (Some newPosition) newPosition, Some (newPosition, elapsed)))
  \/ ((px (previousPosition s) == px newPosition
       \/ py (previousPosition s) == py newPosition)
      /\ TurnGenerator_send s newPosition elapsed
         = (mkTurnState (Some newPosition) (previousPosition s), None)).
Proof.
  unfold TurnGenerator_send.
  destruct (detectTurn (previousPosition s) newPosition) as [t|] eqn:E.
  - left. apply detectTurn_offAxis in E. destruct E as [-> H]. split; [exact H | reflexivity].
  - right. apply detectTurn_None in E. split; [exact E | reflexivity].
Qed.

(** X10.  The turns the turn generator sends are positions it was sent, in
    the same order and with their elapsed times; each one is off both axes
    of the turn sent before it, the first one off both axes of the start
    position; and the generator remembers the last position it was sent. *)
Theorem turns_sent_are_off_axis_positions
    (startPosition : QPointF) (events : list (QPointF * Z)) :
  let run := TurnGenerator_run (TurnGenerator startPosition) events in
  subsequence (snd run) events
  /\ eachOffAxis startPosition (snd run)
  /\ previousPosition (fst run) = last (map fst (snd run)) startPosition
  /\ (events <> [] ->
      position (fst run) = Some (lastPosition startPosition events)).
Proof.
  cbv zeta. unfold lastPosition.
  assert (G : forall (events : list (QPointF * Z)) (s : TurnState),
             subsequence (snd (TurnGenerator_run s events)) events
             /\ eachOffAxis (previousPosition s) (snd (TurnGenerator_run s events))
             /\ previousPosition (fst (TurnGenerator_run s events))
                = last (map fst (snd (TurnGenerator_run s events))) (previousPosition s)
             /\ position (fst (TurnGenerator_run s events))
                = match events with
                  | [] => position s
                  | _ => Some (last (map fst events) (previousPosition s))
                  end).
  { clear. induction events as [|[pos el] rest IH]; intro s.
    - cbn. repeat split. constructor.
    - rewrite TurnGenerator_run_cons.
      destruct (TurnGenerator_send_cases s pos el) as [[Hoff E]|[Hon E]];
        rewrite E; cbn [fst snd sentList app];
        destruct (IH (fst (TurnGenerator_send s pos el))) as (I1 & I2 & I3 & I4);
        rewrite E in I1, I2, I3, I4; cbn [fst snd previousPosition position] in *.
      + split; [now constructor|]. split; [split; assumption|].
        split.
        * rewrite I3.
          destruct (snd (TurnGenerator_run _ rest)) as [|t outs]; [reflexivity|].
          cbn [map fst].
          change (last (fst t :: map fst outs) pos
                  = last (fst t :: map fst outs) (previousPosition s)).
          apply last_cons_default.
        * rewrite I4. destruct rest as [|e rest]; [reflexivity|].
          f_equal. cbn [map fst].
          change (last (fst e :: map fst rest) pos
                  = last (fst e :: map fst rest) (previousPosition s)).
          apply last_cons_default.
      + split; [now constructor|]. split; [assumption|].
        split; [exact I3|].
        rewrite I4. destruct rest as [|e rest]; [reflexivity|]. reflexivity. }
  destruct (G events (TurnGenerator startPosition)) as (G1 & G2 & G3 & G4).
  cbn [TurnGenerator previousPosition] in *.
  split; [exact G1|]. split; [exact G2|]. split; [exact G3|].
  intro Hne. rewrite G4. destruct events; [contradiction|reflexivity].
Qed.

Lemma run_on_axes (startPosition : QPointF) (events : list (QPointF * Z))
    (pos0 : option QPointF) :
  (forall e, In e events ->
     px startPosition == px (fst e) \/ py startPosition == py (fst e)) ->
  TurnGenerator_run (mkTurnState pos0 startPosition) events
  = (mkTurnState
       (match events with
        | [] => pos0
        | _ => Some (lastPosition startPosition events)
        end) startPosition, []).
Proof.
  revert pos0. induction events as [|[pos el] rest IH]; intros pos0 H.
  - reflexivity.
  - rewrite TurnGenerator_run_cons.
    destruct (TurnGenerator_send_cases (mkTurnState pos0 startPosition) pos el)
      as [[[Hx Hy] _]|[_ E]].
    + exfalso. cbn [previousPosition] in Hx, Hy.
      destruct (H (pos, el) (or_introl eq_refl)) as [A|A]; cbn [fst] in A;
        contradiction.
    + rewrite E. cbn [fst snd sentList app previousPosition].
      rewrite IH by (intros e He; apply H; now right).
      cbn [fst snd]. unfold lastPosition.
      destruct rest as [|e rest]; [reflexivity|].
      cbn [map fst].
      change (last (fst (pos, el) :: fst e :: map fst rest) startPosition)
        with (last (fst e :: map fst rest) startPosition).
      reflexivity.
Qed.

(** X11.  Axis suppression: while every position sent is on an axis with
    the start position (same x or same y), the turn generator sends no
    turn and keeps the start position as [previousPosition]; closing it
    then sends the last position sent, with elapsed time 0, unless the
    comparison of [QPointF] takes that position for equal to the start
    position (neither coordinate differs by more than 1e-12). *)
Theorem positions_on_axes_send_no_turn
    (startPosition : QPointF) (events : list (QPointF * Z)) :
  (forall e, In e events ->
     px startPosition == px (fst e) \/ py startPosition == py (fst e)) ->
  events <> [] ->
  let run := TurnGenerator_run (TurnGenerator startPosition) events in
  let final := lastPosition startPosition events in
  snd run = []
  /\ previousPosition (fst run) = startPosition
  /\ (~ fuzzyEqual startPosition final ->
      TurnGenerator_close (fst run) = Some (Some final, 0%Z))
  /\ (fuzzyEqual startPosition final -> TurnGenerator_close (fst run) = None).
Proof.
  intros H Hne. cbv zeta. unfold TurnGenerator.
  rewrite (run_on_axes startPosition events None H). cbn [fst snd previousPosition].
  destruct events as [|e rest]; [contradiction|].
  split; [reflexivity|]. split; [reflexivity|].
  destruct (close_after_position startPosition
              (lastPosition startPosition (e :: rest))) as [HS HC].
  split; intro P; [now apply HS | now apply HC].
Qed.

Lemma positions_on_axes_send_no_turn_witness :
  let events := [(mkQPointF 0 5, 3%Z); (mkQPointF 0 10, 4%Z); (mkQPointF 7 0, 2%Z)] in
  let run := TurnGenerator_run (TurnGenerator (mkQPointF 0 0)) events in
  snd run = []
  /\ TurnGenerator_close (fst run) = Some (Some (mkQPointF 7 0), 0%Z).
Proof.
  cbv zeta.
  destruct (positions_on_axes_send_no_turn (mkQPointF 0 0)
              [(mkQPointF 0 5, 3%Z); (mkQPointF 0 10, 4%Z); (mkQPointF 7 0, 2%Z)])
    as (A & _ & B & _).
  - intros e [<-|[<-|[<-|[]]]]; cbn [fst px py];
      solve [left; reflexivity | right; reflexivity].
  - discriminate.
  - split; [exact A|]. apply B. apply pneqb_true. vm_compute. reflexivity.
Defined.

(** ** More of the line generator *)

Lemma LineGenerator_send_cases (s : LineState) (turn : QPointF) (elapsed : Z) :
  let v := psub turn (startTurn s) in
  (isViolatedBy (constraints s) v = true
   /\ LineGenerator_send s turn elapsed
      = (mkLineState (previousTurn s) turn Constraints_init,
         Some (mkQLineF (startTurn s) (previousTurn s), false)))
  \/ (isViolatedBy (constraints s) v = false
      /\ (elapsed > MAX_POINTER_ELAPSED_FOR_SMOOTH)%Z
      /\ LineGenerator_send s turn elapsed
         = (mkLineState (previousTurn s) turn Constraints_init,
            Some (mkQLineF (startTurn s) turn, true)))
  \/ (isViolatedBy (constraints s) v = false
      /\ (elapsed <= MAX_POINTER_ELAPSED_FOR_SMOOTH)%Z
      /\ LineGenerator_send s turn elapsed
         = (mkLineState (startTurn s) turn (update (constraints s) v), None)).
Proof.
  cbv zeta.
  destruct (isViolatedBy (constraints s) (psub turn (startTurn s))) eqn:Hv.
  - left. split; [reflexivity | now apply send_violated].
  - right.
    destruct (Z_gt_le_dec elapsed MAX_POINTER_ELAPSED_FOR_SMOOTH) as [Ht|Ht].
    + left. split; [reflexivity|]. split; [exact Ht | now apply send_forced].
    + right. split; [reflexivity|]. split; [exact Ht | now apply send_waiting].
Qed.

Lemma LineGenerator_run_cons (s : LineState) (turn : QPointF) (elapsed : Z)
    (rest : list (QPointF * Z)) :
  LineGenerator_run s ((turn, elapsed) :: rest)
  = (fst (LineGenerator_run (fst (LineGenerator_send s turn elapsed)) rest),
     sentList (snd (LineGenerator_send s turn elapsed))
     ++ snd (LineGenerator_run (fst (LineGenerator_send s turn elapsed)) rest)).
Proof.
  cbn [LineGenerator_run].
  destruct (LineGenerator_send s turn elapsed) as [s1 out]. cbn [fst snd].
  destruct (LineGenerator_run s1 rest) as [s2 outs]. cbn [fst snd].
  destruct out; reflexivity.
Qed.

(** X12.  A turn that comes after more than
    [MAX_POINTER_ELAPSED_FOR_SMOOTH] always makes the line generator send a
    line on that push: the unforced line to the previous turn when the
    turn violates the constraints, the forced line to the turn itself when
    it does not.  Either way the line starts at [startTurn], the
    constraints are reset and the next line starts at the previous turn. *)
Theorem slow_turn_always_sends_a_line
    (s : LineState) (turn : QPointF) (elapsed : Z) :
  (elapsed > MAX_POINTER_ELAPSED_FOR_SMOOTH)%Z ->
  exists (line : QLineF) (isLineForced : bool),
    LineGenerator_send s turn elapsed
    = (mkLineState (previousTurn s) turn Constraints_init,
       Some (line, isLineForced))
    /\ p1 line = startTurn s
    /\ p2 line = (if isLineForced then turn else previousTurn s)
    /\ isLineForced
       = negb (isViolatedBy (constraints s) (psub turn (startTurn s))).
Proof.
  intro Ht.
  destruct (LineGenerator_send_cases s turn elapsed) as [[Hv E]|[(Hv & _ & E)|(_ & Hle & _)]].
  - exists (mkQLineF (startTurn s) (previousTurn s)), false.
    rewrite Hv. split; [exact E|]. repeat split.
  - exists (mkQLineF (startTurn s) turn), true.
    rewrite Hv. split; [exact E|]. repeat split.
  - lia.
Qed.

Lemma slow_turn_always_sends_a_line_witness :
  let s := {| startTurn := mkQPointF 0 0;
              previousTurn := mkQPointF 5 1;
              constraints := mkConstraints (mkQPointF 6 0) (mkQPointF 4 2) |} in
  exists (line : QLineF) (isLineForced : bool),
    LineGenerator_send s (mkQPointF 1 5) 250
    = (mkLineState (mkQPointF 5 1) (mkQPointF 1 5) Constraints_init,
       Some (line, isLineForced))
    /\ p1 line = mkQPointF 0 0
    /\ p2 line = (if isLineForced then mkQPointF 1 5 else mkQPointF 5 1)
    /\ isLineForced
       = negb (isViolatedBy (mkConstraints (mkQPointF 6 0) (mkQPointF 4 2))
                 (psub (mkQPointF 1 5) (mkQPointF 0 0))).
Proof.
  apply (slow_turn_always_sends_a_line
           {| startTurn := mkQPointF 0 0;
              previousTurn := mkQPointF 5 1;
              constraints := mkConstraints (mkQPointF 6 0) (mkQPointF 4 2) |}
           (mkQPointF 1 5) 250).
  reflexivity.
Defined.

Lemma linesFollow_weaken (q : QPointF) (lines : list (QLineF * bool)) :
  linesFollow (Some q) lines -> linesFollow None lines.
Proof.
  destruct lines as [|[line f] rest]; [trivial|].
  cbn [linesFollow]. intros [_ H]. split; [exact I | exact H].
Qed.

Lemma lines_sent_follow (turns : list (QPointF * Z)) (s : LineState) :
  let run := LineGenerator_run s turns in
  linesFollow (Some (startTurn s))
    (snd run ++ sentList (LineGenerator_close (fst run)))
  /\ (forall line f,
        In (line, f) (snd run ++ sentList (LineGenerator_close (fst run))) ->
        In (p1 line) (startTurn s :: previousTurn s :: map fst turns)
        /\ In (p2 line) (startTurn s :: previousTurn s :: map fst turns))
  /\ previousTurn (fst run) = last (map fst turns) (previousTurn s).
Proof.
  cbv zeta. revert s. induction turns as [|[turn el] rest IH]; intro s.
  - cbn [LineGenerator_run fst snd app map last].
    unfold LineGenerator_close.
    destruct (pneqb (previousTurn s) (startTurn s)); cbn [sentList linesFollow].
    + split; [split; [reflexivity | exact I]|]. split; [|reflexivity].
      intros line f [H|[]]. inversion H; subst. cbn [p1 p2 In].
      split; [now left | now right; left].
    + split; [exact I|]. split; [|reflexivity]. intros line f [].
  - rewrite LineGenerator_run_cons. cbn [fst snd].
    specialize (IH (fst (LineGenerator_send s turn el))).
    destruct IH as (IH1 & IH2 & IH3).
    set (tail := snd (LineGenerator_run (fst (LineGenerator_send s turn el)) rest)
                 ++ sentList (LineGenerator_close
                               (fst (LineGenerator_run
                                       (fst (LineGenerator_send s turn el)) rest)))) in *.
    rewrite <- app_assoc. fold tail.
    assert (Hlast : last (map fst ((turn, el) :: rest)) (previousTurn s)
                    = last (map fst rest) turn).
    { cbn [map fst]. destruct rest as [|e rest]; [reflexivity|].
      cbn [map fst].
      change (last (fst e :: map fst rest) (previousTurn s)
              = last (fst e :: map fst rest) turn).
      apply last_cons_default. }
    rewrite Hlast. cbn [map fst].
    destruct (LineGenerator_send_cases s turn el)
      as [[_ E]|[(_ & _ & E)|(_ & _ & E)]];
      rewrite E in *; cbn [fst snd sentList app startTurn previousTurn] in *.
    + split; [cbn [linesFollow p1 p2]; split; [reflexivity | exact IH1]|].
      split; [|exact IH3].
      intros line f [H|H].
      * inversion H; subst. cbn [p1 p2 In]. split; [now left | now right; left].
      * destruct (IH2 line f H) as [A B]. cbn [In] in *. split; tauto.
    + split; [cbn [linesFollow p1 p2]; split;
              [reflexivity | now apply (linesFollow_weaken (previousTurn s))]|].
      split; [|exact IH3].
      intros line f [H|H].
      * inversion H; subst. cbn [p1 p2 In]. split; [now left | now right; right; left].
      * destruct (IH2 line f H) as [A B]. cbn [In] in *. split; tauto.
    + split; [exact IH1|]. split; [|exact IH3].
      intros line f H. destruct (IH2 line f H) as [A B]. cbn [In] in *.
      split; tauto.
Qed.

(** X13.  The PathLines the line generator sends for a sequence of turns,
    and the one it sends when it is closed, join turns it has seen: every
    line starts and ends at the start position or at one of the turns; the
    first line starts at the start position and the line after an unforced
    line starts where that line ends. *)
Theorem lines_sent_join_the_turns
    (startPosition : QPointF) (turns : list (QPointF * Z)) :
  let run := LineGenerator_run (LineGenerator startPosition) turns in
  let lines := snd run ++ sentList (LineGenerator_close (fst run)) in
  linesFollow (Some startPosition) lines
  /\ (forall (line : QLineF) (isLineForced : bool),
        In (line, isLineForced) lines ->
        In (p1 line) (startPosition :: map fst turns)
        /\ In (p2 line) (startPosition :: map fst turns)).
Proof.
  cbv zeta.
  destruct (lines_sent_follow turns (LineGenerator startPosition)) as (A & B & _).
  cbn [LineGenerator startTurn previousTurn] in *.
  split; [exact A|].
  intros line f H. destruct (B line f H) as [B1 B2]. cbn [In] in *.
  split; tauto.
Qed.

(** X14.  Closing the line generator: after a sequence of turns its
    [previousTurn] is the last turn it was sent; closing sends one more
    line, unforced, from [startTurn] to that last turn, unless the
    comparison of [QPointF] takes the two for equal (neither coordinate
    differs by more than 1e-12), and right after construction it sends
    nothing. *)
Theorem close_sends_line_to_last_turn
    (startPosition : QPointF) (turns : list (QPointF * Z)) :
  let final := fst (LineGenerator_run (LineGenerator startPosition) turns) in
  previousTurn final = lastPosition startPosition turns
  /\ (~ fuzzyEqual (previousTurn final) (startTurn final) ->
      LineGenerator_close final
      = Some (mkQLineF (startTurn final) (lastPosition startPosition turns), false))
  /\ (fuzzyEqual (previousTurn final) (startTurn final) ->
      LineGenerator_close final = None)
  /\ LineGenerator_close (LineGenerator startPosition) = None.
Proof.
  cbv zeta.
  destruct (lines_sent_follow turns (LineGenerator startPosition)) as (_ & _ & C).
  cbn [LineGenerator previousTurn] in C. unfold lastPosition.
  split; [exact C|]. unfold LineGenerator_close. split; [|split].
  - intro H. apply pneqb_true in H. rewrite H, C. reflexivity.
  - intro H. apply pneqb_false in H. rewrite H. reflexivity.
  - cbn [LineGenerator previousTurn startTurn].
    assert (H : pneqb startPosition startPosition = false)
      by (apply pneqb_false, fuzzyEqual_refl).
    rewrite H. reflexivity.
Qed.

Lemma offsets_cross (v : QPointF) :
  crossProduct (offsetLeft v) v == Qabs (px v) + Qabs (py v)
  /\ crossProduct (offsetRight v) v == - (Qabs (px v) + Qabs (py v)).
Proof.
  unfold offsetLeft, offsetRight, crossProduct; cbn [px py].
  destruct (Qabs_cases (px v)) as [[Hx Ex]|[Hx Ex]],
           (Qabs_cases (py v)) as [[Hy Ey]|[Hy Ey]];
    rewrite Ex, Ey;
    destruct (sign_cases (px v)) as [(_ & A1 & B1 & C1 & D1)|[(S1 & A1 & B1 & C1 & D1)|(_ & A1 & B1 & C1 & D1)]];
    destruct (sign_cases (py v)) as [(_ & A2 & B2 & C2 & D2)|[(S2 & A2 & B2 & C2 & D2)|(_ & A2 & B2 & C2 & D2)]];
    rewrite ?A1, ?B1, ?C1, ?D1, ?A2, ?B2, ?C2, ?D2; cbn [andb orb];
    try (apply sign_zero_iff in S1); try (apply sign_zero_iff in S2);
    try (apply Qgtb_true in A1); try (apply Qgtb_true in A2);
    try (apply Qltb_true in B1); try (apply Qltb_true in B2);
    split; nra.
Qed.

(** X15.  The vector that updates the constraints stays inside them: the
    cross product of the left offset of [v] with [v] is [|v.x| + |v.y|],
    that of the right offset is [-(|v.x| + |v.y|)], so a vector that does
    not violate the constraints does not violate the updated constraints
    either. *)
Theorem update_keeps_vector_satisfied (c : Constraints) (v : QPointF) :
  isViolatedBy c v = false ->
  crossProduct (offsetLeft v) v == Qabs (px v) + Qabs (py v)
  /\ crossProduct (offsetRight v) v == - (Qabs (px v) + Qabs (py v))
  /\ isViolatedBy (update c v) v = false.
Proof.
  intro H. destruct (offsets_cross v) as [L R].
  split; [exact L|]. split; [exact R|].
  apply isViolatedBy_false in H. destruct H as [Hl Hr].
  apply isViolatedBy_false.
  pose proof (Qabs_nonneg (px v)) as Nx. pose proof (Qabs_nonneg (py v)) as Ny.
  unfold update; cbn [constraintLeft constraintRight]. split.
  - destruct (Qgeb _ 0); [rewrite L; lra | exact Hl].
  - destruct (Qleb _ 0); [rewrite R; lra | exact Hr].
Qed.

Lemma update_keeps_vector_satisfied_witness :
  isViolatedBy (update (mkConstraints (mkQPointF 6 0) (mkQPointF 4 2))
                  (mkQPointF 6 2))
    (mkQPointF 6 2) = false.
Proof.
  apply (update_keeps_vector_satisfied
           (mkConstraints (mkQPointF 6 0) (mkQPointF 4 2)) (mkQPointF 6 2)).
  reflexivity.
Defined.

(** ** The pipe as a composition of its filters *)

Lemma CurveGenerator_run_sentList (alphamax : Q) (c : CurveState)
    (sent : option (QLineF * bool)) (rest : list (QLineF * bool)) :
  CurveGenerator_run alphamax c (sentList sent ++ rest)
  = CurveGenerator_run alphamax (sendLine alphamax c sent) rest.
Proof.
  destruct sent as [[line f]|]; reflexivity.
Qed.

Lemma moves_are_composition (alphamax : Q) (events : list (QPointF * Z))
    (tool : FreehandTool) :
  let turns := TurnGenerator_run (turnGenerator tool) events in
  let lines := LineGenerator_run (lineGenerator tool) (snd turns) in
  fold_left (pointerMoveEvent alphamax) events tool
  = mkFreehandTool (fst turns) (fst lines)
      (CurveGenerator_run alphamax (curveGenerator tool) (snd lines)).
Proof.
  cbv zeta. revert tool. induction events as [|[pos el] rest IH]; intro tool.
  - destruct tool; reflexivity.
  - cbn [fold_left]. rewrite IH. rewrite TurnGenerator_run_cons.
    unfold pointerMoveEvent.
    destruct (TurnGenerator_send (turnGenerator tool) pos el) as [ts [[turn e]|]];
      cbn [fst snd sentList app].
    + rewrite LineGenerator_run_cons.
      destruct (LineGenerator_send (lineGenerator tool) turn e) as [ls sent].
      cbn [fst snd turnGenerator lineGenerator curveGenerator].
      rewrite CurveGenerator_run_sentList. reflexivity.
    + reflexivity.
Qed.

(** X16.  The pipe of filters is the composition of its filters: feeding
    the positions of a stroke one by one through the three generators
    leaves the tool in the state obtained by running the turn generator on
    all the positions, then the line generator on all the turns it sent,
    then the curve generator on all the lines that one sent. *)
Theorem pipe_is_composition_of_filters
    (alphamax : Q) (startPosition : QPointF) (events : list (QPointF * Z)) :
  let turns := TurnGenerator_run (TurnGenerator startPosition) events in
  let lines := LineGenerator_run (LineGenerator startPosition) (snd turns) in
  fold_left (pointerMoveEvent alphamax) events (pointerPressEvent startPosition)
  = mkFreehandTool (fst turns) (fst lines)
      (CurveGenerator_run alphamax (CurveGenerator startPosition) (snd lines)).
Proof.
  exact (moves_are_composition alphamax events (pointerPressEvent startPosition)).
Qed.

Lemma moves_on_axes (alphamax : Q) (startPosition : QPointF)
    (events : list (QPointF * Z)) :
  (forall e, In e events ->
     px startPosition == px (fst e) \/ py startPosition == py (fst e)) ->
  fold_left (pointerMoveEvent alphamax) events (pointerPressEvent startPosition)
  = mkFreehandTool
      (mkTurnState
         (match events with
          | [] => None
          | _ => Some (lastPosition startPosition events)
          end) startPosition)
      (LineGenerator startPosition) (CurveGenerator startPosition).
Proof.
  intro H. rewrite moves_are_composition.
  cbn [pointerPressEvent turnGenerator lineGenerator curveGenerator].
  unfold TurnGenerator. rewrite (run_on_axes startPosition events None H).
  reflexivity.
Qed.

(** X17.  A stroke that stays on the axes of its start position (no turn
    is ever detected) and ends away from it (some coordinate of its last
    position differs from the start position by more than 1e-12, the
    tolerance of the comparison of [QPointF]) is drawn, at the release, as
    one spline from the start position to the middle of the segment to
    the last position, whose first control point is the start position,
    followed by the line to the release position; if that comparison
    takes its last position for equal to the start position, or it has no
    move at all, only that line is drawn. *)
Theorem stroke_on_axes_is_drawn_at_release
    (startPosition : QPointF) (events : list (QPointF * Z))
    (releasePosition : QPointF) :
  (forall e, In e events ->
     px startPosition == px (fst e) \/ py startPosition == py (fst e)) ->
  let final := lastPosition startPosition events in
  let drawn := elements (path (curveGenerator
                 (stroke ALPHAMAX startPosition events releasePosition))) in
  (fuzzyEqual startPosition final -> drawn = [LinePathElement releasePosition])
  /\ (~ fuzzyEqual startPosition final ->
      exists controlPoint1 controlPoint2 : QPointF,
        drawn = [SplinePathElement controlPoint1 controlPoint2
                   (interval (1 / 2) final startPosition);
                 LinePathElement releasePosition]
        /\ Peq controlPoint1 startPosition).
Proof.
  intros H. cbv zeta. unfold stroke, pointerReleaseEvent. cbv zeta.
  cbn [curveGenerator path].
  rewrite (moves_on_axes ALPHAMAX startPosition events H).
  unfold closeFilterPipe. cbn [turnGenerator lineGenerator curveGenerator].
  assert (Hc : LineGenerator_close (LineGenerator startPosition) = None).
  { unfold LineGenerator_close, LineGenerator; cbn [previousTurn startTurn].
    assert (Hp : pneqb startPosition startPosition = false)
      by (apply pneqb_false, fuzzyEqual_refl).
    rewrite Hp. reflexivity. }
  destruct events as [|e rest].
  - split.
    + intros _. unfold TurnGenerator_close; cbn [position previousPosition].
      rewrite Hc. reflexivity.
    + intro N. exfalso. apply N. apply fuzzyEqual_refl.
  - set (final := lastPosition startPosition (e :: rest)).
    destruct (close_after_position startPosition final) as [HS HC].
    split.
    + intro P. apply HC in P. rewrite P. rewrite Hc. reflexivity.
    + intro N. rewrite (proj2 HS N).
      assert (Hv : isViolatedBy (constraints (LineGenerator startPosition))
                     (psub final (startTurn (LineGenerator startPosition))) = false)
        by apply isViolatedBy_init.
      rewrite (send_waiting (LineGenerator startPosition) final 0 Hv)
        by (unfold MAX_POINTER_ELAPSED_FOR_SMOOTH; lia).
      cbn [sendLine curveGenerator LineGenerator startTurn previousTurn].
      unfold LineGenerator_close; cbn [previousTurn startTurn].
      assert (Hp : pneqb final startPosition = true).
      { apply pneqb_true. intro K. apply N. now apply fuzzyEqual_sym. }
      rewrite Hp. cbn [sendLine].
      assert (Nc : ~ Peq startPosition final)
        by (intro K; apply N; now apply Peq_fuzzyEqual).
      unfold CurveGenerator_send, CurveGenerator_fit, CurveGenerator;
        cbn [previousLine path].
      destruct (fit_from_null_line_spline ALPHAMAX startPosition
                  (mkQLineF startPosition final) Nc)
        as (c1 & c2 & E & Pc & _); [discriminate|].
      cbn [p2] in E. rewrite E. cbn.
      exists c1, c2. split; [reflexivity | exact Pc].
Qed.

Lemma stroke_on_axes_is_drawn_at_release_witness :
  let events := [(mkQPointF 0 5, 3%Z); (mkQPointF 0 10, 4%Z)] in
  exists controlPoint1 controlPoint2 : QPointF,
    elements (path (curveGenerator
                (stroke ALPHAMAX (mkQPointF 0 0) events (mkQPointF 0 10))))
    = [SplinePathElement controlPoint1 controlPoint2
         (interval (1 / 2) (mkQPointF 0 10) (mkQPointF 0 0));
       LinePathElement (mkQPointF 0 10)]
    /\ Peq controlPoint1 (mkQPointF 0 0).
Proof.
  cbv zeta.
  destruct (stroke_on_axes_is_drawn_at_release (mkQPointF 0 0)
              [(mkQPointF 0 5, 3%Z); (mkQPointF 0 10, 4%Z)] (mkQPointF 0 10))
    as [_ H].
  - intros e [<-|[<-|[]]]; left; reflexivity.
  - apply H. apply pneqb_true. vm_compute. reflexivity.
Defined.

(** ** More of the curvature test *)

Lemma Qneqb_compat (a b c d : Q) : a == c -> b == d -> Qneqb a b = Qneqb c d.
Proof.
  intros E1 E2. unfold Qneqb. f_equal.
  destruct (Qeq_bool a b) eqn:A, (Qeq_bool c d) eqn:B; try reflexivity.
  - apply Qeq_bool_iff in A. apply Qeq_bool_neq in B. exfalso. apply B. lra.
  - apply Qeq_bool_iff in B. apply Qeq_bool_neq in A. exfalso. apply A. lra.
Qed.

Lemma Qgtb_compat (a b c d : Q) : a == c -> b == d -> Qgtb a b = Qgtb c d.
Proof.
  intros E1 E2.
  destruct (Qgtb a b) eqn:A, (Qgtb c d) eqn:B; try reflexivity.
  - apply Qgtb_true in A. apply Qgtb_false in B. exfalso. lra.
  - apply Qgtb_true in B. apply Qgtb_false in A. exfalso. lra.
Qed.

Lemma alphaOf_compat (p1 p2 p3 q1 q2 q3 : QPointF) :
  ddenom p1 p3 == ddenom q1 q3 ->
  Qabs (areaOfParallelogram p1 p2 p3) == Qabs (areaOfParallelogram q1 q2 q3) ->
  alphaOf p1 p2 p3 == alphaOf q1 q2 q3.
Proof.
  intros HD HA. unfold alphaOf. cbv zeta.
  rewrite (Qneqb_compat (ddenom p1 p3) 0 (ddenom q1 q3) 0 HD (Qeq_refl 0)).
  destruct (Qneqb (ddenom q1 q3) 0) eqn:Hd; [|reflexivity].
  apply Qneqb_true in Hd.
  assert (Hdp : ~ ddenom p1 p3 == 0) by (rewrite HD; exact Hd).
  assert (Edd : Qabs (areaOfParallelogram p1 p2 p3 / ddenom p1 p3)
                == Qabs (areaOfParallelogram q1 q2 q3 / ddenom q1 q3)).
  { unfold Qdiv. rewrite !Qabs_Qmult, !Qabs_Qinv, HA, HD. reflexivity. }
  rewrite (Qgtb_compat _ 1 _ 1 Edd (Qeq_refl 1)).
  destruct (Qgtb _ 1); [|reflexivity].
  rewrite Edd. reflexivity.
Qed.

(** X18.  The curvature test does not depend on the direction of travel
    nor on where the three points are: alpha is the same for
    [point3, point2, point1] as for [point1, point2, point3], and the same
    after the three points are moved by one vector. *)
Theorem alpha_is_symmetric_and_translation_invariant
    (point1 point2 point3 shift : QPointF) :
  alphaOf point3 point2 point1 == alphaOf point1 point2 point3
  /\ alphaOf (psub point1 shift) (psub point2 shift) (psub point3 shift)
     == alphaOf point1 point2 point3.
Proof.
  split; apply alphaOf_compat.
  - rewrite !ddenom_abs.
    rewrite (Qabs_Qminus (px point1) (px point3)).
    rewrite (Qabs_Qminus (py point1) (py point3)). reflexivity.
  - assert (E : areaOfParallelogram point3 point2 point1
                == - areaOfParallelogram point1 point2 point3)
      by (unfold areaOfParallelogram; ring).
    rewrite E. apply Qabs_opp.
  - rewrite !ddenom_abs. unfold psub; cbn [px py].
    assert (Ex : px point3 - px shift - (px point1 - px shift)
                 == px point3 - px point1) by ring.
    assert (Ey : py point3 - py shift - (py point1 - py shift)
                 == py point3 - py point1) by ring.
    rewrite Ex, Ey. reflexivity.
  - assert (E : areaOfParallelogram (psub point1 shift) (psub point2 shift)
                  (psub point3 shift)
                == areaOfParallelogram point1 point2 point3)
      by (unfold areaOfParallelogram, psub; cbn [px py]; ring).
    rewrite E. reflexivity.
Qed.

(** X19.  The curvature test depends on the scale (the source notes that
    cusps also come from shallow angles on long lines): for three points
    that are not on one line, scaling them by a factor [k] with
    [k * |area| > 10 * ddenom] makes alpha exceed the default [ALPHAMAX],
    so the fit of the scaled lines is a cusp. *)
Theorem long_lines_make_cusps (point1 point2 point3 : QPointF) (k : Q) :
  0 < k ->
  10 * ddenom point1 point3
  < k * Qabs (areaOfParallelogram point1 point2 point3) ->
  let scaled := fun p : QPointF => mkQPointF (k * px p) (k * py p) in
  ALPHAMAX < alphaOf (scaled point1) (scaled point2) (scaled point3)
  /\ curvesFromLineMidToMid ALPHAMAX
       (mkQLineF (scaled point1) (scaled point2))
       (mkQLineF (scaled point2) (scaled point3))
     = createCusp (scaled point2)
         (interval (1 / 2) (scaled point3) (scaled point2)).
Proof.
  intros Hk H. cbv zeta.
  set (s1 := mkQPointF (k * px point1) (k * py point1)).
  set (s2 := mkQPointF (k * px point2) (k * py point2)).
  set (s3 := mkQPointF (k * px point3) (k * py point3)).
  assert (Ha : ALPHAMAX < alphaOf s1 s2 s3).
  { apply alphaOf_exceeds_default. right.
    assert (ED : ddenom s1 s3 == k * ddenom point1 point3).
    { rewrite !ddenom_abs. unfold s1, s3; cbn [px py].
      assert (Ex : k * px point3 - k * px point1 == k * (px point3 - px point1)) by ring.
      assert (Ey : k * py point3 - k * py point1 == k * (py point3 - py point1)) by ring.
      rewrite Ex, Ey, !Qabs_Qmult, (Qabs_pos k) by lra. ring. }
    assert (EA : Qabs (areaOfParallelogram s1 s2 s3)
                 == k * k * Qabs (areaOfParallelogram point1 point2 point3)).
    { assert (E : areaOfParallelogram s1 s2 s3
                  == (k * k) * areaOfParallelogram point1 point2 point3)
        by (unfold areaOfParallelogram, s1, s2, s3; cbn [px py]; ring).
      rewrite E, Qabs_Qmult. rewrite (Qabs_pos (k * k)) by nra. reflexivity. }
    rewrite ED, EA.
    set (D := ddenom point1 point3) in *.
    set (A := Qabs (areaOfParallelogram point1 point2 point3)) in *.
    clearbody D A. nra. }
  split; [exact Ha|].
  now apply (midToMid_cusp ALPHAMAX (mkQLineF s1 s2) (mkQLineF s2 s3)).
Qed.

Lemma long_lines_make_cusps_witness :
  let scaled := fun p : QPointF => mkQPointF (30 * px p) (30 * py p) in
  ALPHAMAX < alphaOf (scaled (mkQPointF 0 0)) (scaled (mkQPointF 2 1))
               (scaled (mkQPointF 4 0)).
Proof.
  cbv zeta.
  apply (long_lines_make_cusps (mkQPointF 0 0) (mkQPointF 2 1) (mkQPointF 4 0) 30).
  - reflexivity.
  - vm_compute. reflexivity.
Defined.

(** ** Directions *)

Lemma setitem_keys (key value : Z) (d : Directions.t) (k : Z) :
  In k (Directions.keys (Directions.setitem key value d))
  <-> k = key \/ In k (Directions.keys d).
Proof.
  unfold Directions.keys.
  induction d as [|[k0 v0] rest IH]; cbn [Directions.setitem map fst In].
  - split; [intros [H|[]]; left; now symmetry | intros [H|[]]; left; now symmetry].
  - destruct (k0 =? key)%Z eqn:E; cbn [map fst In].
    + apply Z.eqb_eq in E. subst k0. intuition congruence.
    + rewrite IH. intuition congruence.
Qed.

Lemma setitem_NoDup (key value : Z) (d : Directions.t) :
  NoDup (Directions.keys d) ->
  NoDup (Directions.keys (Directions.setitem key value d)).
Proof.
  unfold Directions.keys.
  induction d as [|[k0 v0] rest IH]; cbn [Directions.setitem map fst]; intro H.
  - constructor; [intros [] | constructor].
  - destruct (k0 =? key)%Z eqn:E; cbn [map fst].
    + exact H.
    + inversion H as [|? ? Hn Hr]; subst. constructor.
      * intro Hin. apply (setitem_keys key value rest k0) in Hin.
        destruct Hin as [Hk|Hin]; [|contradiction].
        apply Z.eqb_neq in E. contradiction.
      * now apply IH.
Qed.

Lemma direction_range (v : QPointF) :
  In (Directions.direction v) [-1; 0; 1; 2; 3]%Z.
Proof.
  unfold Directions.direction.
  destruct (sign_values (px v)) as [Sx|[Sx|Sx]],
           (sign_values (py v)) as [Sy|[Sy|Sy]];
    rewrite Sx, Sy; vm_compute; tauto.
Qed.

(** X20.  The dictionary of directions: after any sequence of updates
    from the empty dictionary its keys are without repetition and are
    exactly the directions of the vectors between the pairs of turns it
    was updated with; every key is one of -1, 0, 1, 2, 3, so its length
    never exceeds 5; and for vectors off the axes (both components not
    zero, as between two turns) two vectors have the same key exactly when
    they point into the same quadrant. *)
Theorem directions_are_counted_once (pairs : list (QPointF * QPointF)) :
  let d := fold_left (fun d pair => Directions.update d (fst pair) (snd pair))
             pairs Directions.init in
  NoDup (Directions.keys d)
  /\ (forall k : Z,
        In k (Directions.keys d)
        <-> exists pair, In pair pairs
                         /\ k = Directions.direction (psub (snd pair) (fst pair)))
  /\ (Directions.len d <= 5)%nat
  /\ (forall v w : QPointF,
        ~ px v == 0 -> ~ py v == 0 -> ~ px w == 0 -> ~ py w == 0 ->
        (Directions.direction v = Directions.direction w
         <-> sign (px v) = sign (px w) /\ sign (py v) = sign (py w))).
Proof.
  cbv zeta.
  assert (G : forall (pairs : list (QPointF * QPointF)) (d0 : Directions.t),
             NoDup (Directions.keys d0) ->
             let d := fold_left
                        (fun d pair => Directions.update d (fst pair) (snd pair))
                        pairs d0 in
             NoDup (Directions.keys d)
             /\ (forall k : Z,
                   In k (Directions.keys d)
                   <-> In k (Directions.keys d0)
                       \/ exists pair, In pair pairs
                            /\ k = Directions.direction (psub (snd pair) (fst pair)))).
  { clear. induction pairs as [|pair rest IH]; intros d0 H0; cbv zeta.
    - cbn [fold_left]. split; [exact H0|].
      intro k. split; [now left | intros [H|(p & [] & _)]; exact H].
    - cbn [fold_left].
      destruct (IH (Directions.update d0 (fst pair) (snd pair))) as [N K].
      { unfold Directions.update. now apply setitem_NoDup. }
      split; [exact N|]. intro k. rewrite K.
      unfold Directions.update at 1. rewrite setitem_keys. split.
      + intros [[H|H]|(p & Hp & Hk)].
        * right. exists pair. split; [now left | exact H].
        * now left.
        * right. exists p. split; [now right | exact Hk].
      + intros [H|(p & [Hp|Hp] & Hk)].
        * left. now right.
        * subst p. left. now left.
        * right. exists p. split; assumption. }
  destruct (G pairs Directions.init) as [N K]; [constructor|].
  split; [exact N|]. split; [|split].
  - intro k. rewrite K. split.
    + intros [[]|H]; exact H.
    + intro H. now right.
  - unfold Directions.len.
    rewrite <- (length_map fst). fold (Directions.keys
      (fold_left (fun d pair => Directions.update d (fst pair) (snd pair))
         pairs Directions.init)).
    change 5%nat with (length [-1; 0; 1; 2; 3]%Z).
    apply NoDup_incl_length; [exact N|].
    intros k Hk. apply K in Hk. destruct Hk as [[]|(p & _ & ->)].
    apply direction_range.
  - intros v w Hvx Hvy Hwx Hwy. unfold Directions.direction.
    destruct (sign_values (px v)) as [A|[A|A]];
      [| apply sign_zero_iff in A; contradiction |];
      destruct (sign_values (py v)) as [B|[B|B]];
      try (apply sign_zero_iff in B; contradiction);
      destruct (sign_values (px w)) as [C|[C|C]];
      try (apply sign_zero_iff in C; contradiction);
      destruct (sign_values (py w)) as [D|[D|D]];
      try (apply sign_zero_iff in D; contradiction);
      rewrite A, B, C, D; vm_compute; split;
      solve [intro H; discriminate H | intros [H1 H2]; discriminate
             | intros _; split; reflexivity | intros _; reflexivity
             | intros [H1 H2]; reflexivity ].
Qed.

(** ** Bounded output *)

Lemma sentList_length (A : Type) (sent : option A) : (length (sentList sent) <= 1)%nat.
Proof. destruct sent; cbn; lia. Qed.

Lemma turns_no_more_than_positions (events : list (QPointF * Z)) (s : TurnState) :
  (length (snd (TurnGenerator_run s events)) <= length events)%nat.
Proof.
  revert s. induction events as [|[pos el] rest IH]; intro s.
  - cbn. lia.
  - rewrite TurnGenerator_run_cons. cbn [snd]. rewrite length_app.
    pose proof (sentList_length _ (snd (TurnGenerator_send s pos el))).
    specialize (IH (fst (TurnGenerator_send s pos el))). cbn [length]. lia.
Qed.

Lemma lines_no_more_than_turns (turns : list (QPointF * Z)) (s : LineState) :
  (length (snd (LineGenerator_run s turns)) <= length turns)%nat.
Proof.
  revert s. induction turns as [|[turn el] rest IH]; intro s.
  - cbn. lia.
  - rewrite LineGenerator_run_cons. cbn [snd]. rewrite length_app.
    pose proof (sentList_length _ (snd (LineGenerator_send s turn el))).
    specialize (IH (fst (LineGenerator_send s turn el))). cbn [length]. lia.
Qed.

Lemma fit_length (alphamax : Q) (previousLine line : QLineF) (isLineForced : bool) :
  let curves := fst (fst (CurveGenerator_fit alphamax previousLine line isLineForced)) in
  (1 <= length curves <= 3)%nat.
Proof.
  cbv zeta. unfold CurveGenerator_fit, curvesFromLineMidToEnd, curvesFromLineMidToMid.
  cbv zeta. destruct isLineForced; destruct (Qgtb _ alphamax); cbn; lia.
Qed.

Lemma send_elements (alphamax : Q) (c : CurveState) (line : QLineF) (f : bool) :
  elements (path (CurveGenerator_send alphamax c line f))
  = elements (path c) ++ fst (fst (CurveGenerator_fit alphamax (previousLine c) line f)).
Proof.
  unfold CurveGenerator_send.
  destruct (CurveGenerator_fit alphamax (previousLine c) line f) as [[curves e] l].
  cbn [path fst]. rewrite fold_addItem. reflexivity.
Qed.

Lemma elements_per_line (alphamax : Q) (lines : list (QLineF * bool)) (c : CurveState) :
  let drawn := length (elements (path (CurveGenerator_run alphamax c lines))) in
  (length (elements (path c)) + length lines <= drawn
   /\ drawn <= length (elements (path c)) + 3 * length lines)%nat.
Proof.
  cbv zeta. revert c. induction lines as [|[line f] rest IH]; intro c.
  - cbn. lia.
  - unfold CurveGenerator_run. cbn [fold_left fst snd].
    fold (CurveGenerator_run alphamax (CurveGenerator_send alphamax c line f) rest).
    specialize (IH (CurveGenerator_send alphamax c line f)).
    rewrite send_elements, length_app in IH.
    pose proof (fit_length alphamax (previousLine c) line f) as F. cbv zeta in F.
    cbn [length]. lia.
Qed.

(** X21.  Bounded output: the turn generator sends at most one turn per
    position, the line generator at most one line per turn, and the curve
    generator adds to the path at least one and at most three elements per
    line; so the moves of a stroke draw at most three elements per
    position. *)
Theorem output_is_bounded_by_input
    (alphamax : Q) (startPosition : QPointF) (events : list (QPointF * Z)) :
  let turns := snd (TurnGenerator_run (TurnGenerator startPosition) events) in
  let lines := snd (LineGenerator_run (LineGenerator startPosition) turns) in
  let drawn :=
    elements (path (curveGenerator
      (fold_left (pointerMoveEvent alphamax) events
         (pointerPressEvent startPosition)))) in
  (length turns <= length events
   /\ length lines <= length turns
   /\ length lines <= length drawn
   /\ length drawn <= 3 * length lines
   /\ length drawn <= 3 * length events)%nat.
Proof.
  cbv zeta.
  pose proof (turns_no_more_than_positions events (TurnGenerator startPosition)) as T.
  pose proof (lines_no_more_than_turns
                (snd (TurnGenerator_run (TurnGenerator startPosition) events))
                (LineGenerator startPosition)) as L.
  rewrite moves_are_composition.
  cbn [pointerPressEvent turnGenerator lineGenerator curveGenerator].
  pose proof (elements_per_line alphamax
                (snd (LineGenerator_run (LineGenerator startPosition)
                        (snd (TurnGenerator_run (TurnGenerator startPosition) events))))
                (CurveGenerator startPosition)) as E.
  cbv zeta in E. cbn [CurveGenerator path elements length] in E.
  lia.
Qed.

(** ** More of the utilities *)

(** X22.  [sign] returns 1, 0 or -1; it is 0 exactly at 0; the sign of
    the opposite is the opposite sign; and [sign(x) * x] is [|x|]. *)
Theorem sign_is_the_sign (x : Q) :
  (sign x = 1%Z <-> 0 < x)
  /\ (sign x = 0%Z <-> x == 0)
  /\ (sign x = (-1)%Z <-> x < 0)
  /\ sign (- x) = (- sign x)%Z
  /\ inject_Z (sign x) * x == Qabs x.
Proof.
  assert (G : forall y : Q,
             (sign y = 1%Z /\ 0 < y) \/ (sign y = 0%Z /\ y == 0)
             \/ (sign y = (-1)%Z /\ y < 0)).
  { intro y.
    destruct (sign_cases y) as [(S & A & _)|[(S & A & B & _)|(S & _ & B & _)]].
    - left. split; [exact S | now apply Qgtb_true in A].
    - right; left. split; [exact S|].
      apply Qgtb_false in A. apply Qltb_false in B. lra.
    - right; right. split; [exact S | now apply Qltb_true in B]. }
  split; [|split; [|split; [|split]]].
  - destruct (G x) as [[S H]|[[S H]|[S H]]]; rewrite S;
      split; intro K; solve [assumption | reflexivity | discriminate K | exfalso; lra].
  - destruct (G x) as [[S H]|[[S H]|[S H]]]; rewrite S;
      split; intro K; solve [assumption | reflexivity | discriminate K | exfalso; lra].
  - destruct (G x) as [[S H]|[[S H]|[S H]]]; rewrite S;
      split; intro K; solve [assumption | reflexivity | discriminate K | exfalso; lra].
  - destruct (G x) as [[S H]|[[S H]|[S H]]], (G (- x)) as [[S' H']|[[S' H']|[S' H']]];
      rewrite S, S'; solve [reflexivity | exfalso; lra].
  - apply sign_mult_abs.
Qed.

(** X23.  Whether a vector violates the constraints depends on its
    direction only: a vector and any positive multiple of it violate the
    same constraints, and the null vector violates none. *)
Theorem violation_depends_on_direction (c : Constraints) (v : QPointF) (k : Q) :
  0 < k ->
  isViolatedBy c (mkQPointF (k * px v) (k * py v)) = isViolatedBy c v
  /\ isViolatedBy c (mkQPointF 0 0) = false.
Proof.
  intro Hk. split.
  - assert (E : forall b : QPointF,
               crossProduct b (mkQPointF (k * px v) (k * py v))
               == k * crossProduct b v)
      by (intro b; unfold crossProduct; cbn [px py]; ring).
    destruct (isViolatedBy c v) eqn:Hv.
    + apply isViolatedBy_true in Hv. apply isViolatedBy_true.
      rewrite !E. destruct Hv as [H|H]; [left | right]; nra.
    + apply isViolatedBy_false in Hv. apply isViolatedBy_false.
      rewrite !E. destruct Hv as [H1 H2]. split; nra.
  - apply isViolatedBy_false.
    assert (E : forall b : QPointF, crossProduct b (mkQPointF 0 0) == 0)
      by (intro b; unfold crossProduct; cbn [px py]; ring).
    rewrite !E. split; apply Qle_refl.
Qed.

Lemma violation_depends_on_direction_witness :
  isViolatedBy (mkConstraints (mkQPointF 6 0) (mkQPointF 4 2))
    (mkQPointF (3 * 1) (3 * 5))
  = isViolatedBy (mkConstraints (mkQPointF 6 0) (mkQPointF 4 2)) (mkQPointF 1 5).
Proof.
  apply (violation_depends_on_direction
           (mkConstraints (mkQPointF 6 0) (mkQPointF 4 2)) (mkQPointF 1 5) 3).
  reflexivity.
Defined.
